(** * mesos_exporter: the master state collector (master_state.go)

    A shallow embedding of the snapshot-to-metrics mapping of the Mesos
    exporter: the range codec used for port pools ([ranges.UnmarshalJSON],
    [ranges.size]), the registry of metric descriptors built by
    [newMasterStateCollector], and the collection cycle
    [masterCollector.Collect].

    Conventions.
    - A Go [[]byte] is a [list ascii]; a Go [string] is a [string].
    - A [uint64] is a [Z] with the wrap-around modulo 2^64 written out.
    - A [float64] is a primitive binary64 float.
    - A method with a pointer receiver that may fail is a function from the
      receiver's old value to its new value and an optional error. *)

From Stdlib Require Import ZArith List Ascii String Lia Bool.
From Stdlib Require Import Floats.PrimFloat Numbers.Cyclic.Int63.Uint63.
From stdpp Require Import gmap strings list fin_maps.

Local Open Scope Z_scope.

(** ** Byte slices *)

Module Bytes.

Definition bytes := list ascii.

Definition of_string (s : string) : bytes := list_ascii_of_string s.

Definition byte_val (c : ascii) : Z := Z.of_N (N_of_ascii c).

Definition mem (c : ascii) (cutset : bytes) : bool :=
  existsb (Ascii.eqb c) cutset.

(** [bytes.TrimLeft] and [bytes.TrimRight] for a cutset of ASCII bytes. *)
Fixpoint TrimLeft (s cutset : bytes) : bytes :=
  match s with
  | c :: s' => if mem c cutset then TrimLeft s' cutset else s
  | [] => []
  end.

Definition TrimRight (s cutset : bytes) : bytes :=
  rev (TrimLeft (rev s) cutset).

(** [bytes.Trim(s, cutset)]: all leading and trailing bytes contained in
    [cutset] are sliced off. *)
Definition Trim (s cutset : bytes) : bytes :=
  TrimRight (TrimLeft s cutset) cutset.

(** [utf8.RuneSelf], [utf8.RuneError] and [utf8.UTFMax]. *)
Definition RuneSelf : Z := 128.
Definition RuneError : Z := 65533.
Definition UTFMax : nat := 4.

(** The table [first] of package utf8 for a leading byte from 0x80 on: the
    size of the encoding and the range accepted for its second byte, or
    [None] for a byte that starts no encoding. *)
Definition first (p0 : Z) : option (nat * (Z * Z)) :=
  if p0 <? 194 then None
  else if p0 <? 224 then Some (2%nat, (128, 191))
  else if p0 =? 224 then Some (3%nat, (160, 191))
  else if p0 =? 237 then Some (3%nat, (128, 159))
  else if p0 <? 240 then Some (3%nat, (128, 191))
  else if p0 =? 240 then Some (4%nat, (144, 191))
  else if p0 <? 244 then Some (4%nat, (128, 191))
  else if p0 =? 244 then Some (4%nat, (128, 143))
  else None.

Definition byte_at (p : bytes) (i : nat) : Z := byte_val (nth i p Ascii.zero).

Definition continuation (b : Z) : bool := (128 <=? b) && (b <=? 191).

(** [utf8.DecodeRune(p)]: the first rune of [p] and its width in bytes;
    [RuneError] with width 1 for an encoding that is not valid. *)
Definition DecodeRune (p : bytes) : Z * nat :=
  match p with
  | [] => (RuneError, 0%nat)
  | c0 :: _ =>
      let p0 := byte_val c0 in
      if p0 <? RuneSelf then (p0, 1%nat)
      else
        match first p0 with
        | None => (RuneError, 1%nat)
        | Some (sz, (lo, hi)) =>
            if (length p <? sz)%nat then (RuneError, 1%nat)
            else
              let b1 := byte_at p 1 in
              if (b1 <? lo) || (hi <? b1) then (RuneError, 1%nat)
              else if (sz <=? 2)%nat then
                (Z.lor (Z.shiftl (Z.land p0 31) 6) (Z.land b1 63), 2%nat)
              else
                let b2 := byte_at p 2 in
                if negb (continuation b2) then (RuneError, 1%nat)
                else if (sz <=? 3)%nat then
                  (Z.lor (Z.shiftl (Z.land p0 15) 12)
                     (Z.lor (Z.shiftl (Z.land b1 63) 6) (Z.land b2 63)), 3%nat)
                else
                  let b3 := byte_at p 3 in
                  if negb (continuation b3) then (RuneError, 1%nat)
                  else
                    (Z.lor (Z.shiftl (Z.land p0 7) 18)
                       (Z.lor (Z.shiftl (Z.land b1 63) 12)
                          (Z.lor (Z.shiftl (Z.land b2 63) 6) (Z.land b3 63))), 4%nat)
        end
  end.

(** [utf8.RuneStart(b)]: the byte is no continuation byte. *)
Definition RuneStart (b : Z) : bool := negb (Z.land b 192 =? 128).

(** The backward loop of [utf8.DecodeLastRune]: from [start] down to [lim],
    the first index of a byte that can start a rune. *)
Fixpoint DecodeLastRune_scan (p : bytes) (lim : Z) (fuel : nat) (start : Z) : Z :=
  match fuel with
  | O => start
  | S fuel' =>
      if start <? lim then start
      else if RuneStart (byte_at p (Z.to_nat start)) then start
      else DecodeLastRune_scan p lim fuel' (start - 1)
  end.

(** [utf8.DecodeLastRune(p)]: the last rune of [p] and its width. *)
Definition DecodeLastRune (p : bytes) : Z * nat :=
  let end_ := Z.of_nat (length p) in
  if end_ =? 0 then (RuneError, 0%nat)
  else
    let r := byte_at p (Z.to_nat (end_ - 1)) in
    if r <? RuneSelf then (r, 1%nat)
    else
      let lim := Z.max (end_ - Z.of_nat UTFMax) 0 in
      let start := DecodeLastRune_scan p lim UTFMax (end_ - 2) in
      let start := Z.max start 0 in
      let '(r, size) := DecodeRune (drop (Z.to_nat start) p) in
      if start + Z.of_nat size =? end_ then (r, size) else (RuneError, 1%nat).

(** [unicode.IsSpace(r)]: the white space of Latin-1 and the code points of
    the property White_Space beyond it. *)
Definition IsSpace (r : Z) : bool :=
  ((9 <=? r) && (r <=? 13)) || (r =? 32) || (r =? 133) || (r =? 160)
  || (r =? 5760) || ((8192 <=? r) && (r <=? 8202))
  || (r =? 8232) || (r =? 8233) || (r =? 8239) || (r =? 8287) || (r =? 12288).

(** The rune at the head of [s] as the loops of package bytes read it: a
    byte below [RuneSelf] is its own rune. *)
Definition head_rune (s : bytes) : Z * nat :=
  match s with
  | [] => (RuneError, 0%nat)
  | c :: _ => if byte_val c <? RuneSelf then (byte_val c, 1%nat) else DecodeRune s
  end.

(** [bytes.TrimLeftFunc(s, unicode.IsSpace)]: the loop of [indexFunc] skips
    rune after rune while they are white space. *)
Fixpoint TrimLeftFunc_loop (fuel : nat) (s : bytes) : bytes :=
  match fuel with
  | O => s
  | S fuel' =>
      match s with
      | [] => []
      | _ :: _ =>
          let '(r, wid) := head_rune s in
          if IsSpace r then TrimLeftFunc_loop fuel' (drop wid s) else s
      end
  end.

Definition TrimLeftSpace (s : bytes) : bytes := TrimLeftFunc_loop (length s) s.

(** The loop of [lastIndexFunc(s, unicode.IsSpace, false)] from the index
    [i] down: the index of the last rune that is no white space, if any. *)
Fixpoint lastIndexFunc_loop (fuel : nat) (s : bytes) (i : nat) : option nat :=
  match fuel with
  | O => None
  | S fuel' =>
      if (i =? 0)%nat then None
      else
        let c := byte_at s (i - 1) in
        let '(r, size) :=
          if c <? RuneSelf then (c, 1%nat) else DecodeLastRune (take i s) in
        let i := (i - size)%nat in
        if IsSpace r then lastIndexFunc_loop fuel' s i else Some i
  end.

(** [bytes.TrimRightFunc(s, unicode.IsSpace)] *)
Definition TrimRightSpace (s : bytes) : bytes :=
  match lastIndexFunc_loop (length s) s (length s) with
  | Some i =>
      if RuneSelf <=? byte_at s i
      then take (i + snd (DecodeRune (drop i s))) s
      else take (i + 1) s
  | None => []
  end.

(** [bytes.TrimSpace(s)]: all leading and trailing white space, as defined by
    Unicode, is sliced off.  (The Go function first runs over the ASCII
    white space at both ends and then falls back to
    [TrimFunc(s, unicode.IsSpace)], with the same result.) *)
Definition TrimSpace (s : bytes) : bytes := TrimRightSpace (TrimLeftSpace s).

(** [bytes.Index(s, sep)] for a one-byte separator, as the two sides of the
    first occurrence. *)
Fixpoint cut (s : bytes) (sep : ascii) : option (bytes * bytes) :=
  match s with
  | [] => None
  | c :: s' =>
      if Ascii.eqb c sep then Some ([], s')
      else match cut s' sep with
           | Some (before, after) => Some (c :: before, after)
           | None => None
           end
  end.

(** [bytes.Split(s, sep)] for a one-byte separator: the sub-slices between
    the separators, one more than there are separators. *)
Fixpoint Split (s : bytes) (sep : ascii) : list bytes :=
  match s with
  | [] => [[]]
  | c :: s' =>
      if Ascii.eqb c sep then [] :: Split s' sep
      else match Split s' sep with
           | piece :: pieces => (c :: piece) :: pieces
           | [] => [[c]]
           end
  end.

(** [bytes.SplitN(s, sep, 2)] for a one-byte separator: at most two
    sub-slices, the second being the unsplit remainder. *)
Definition SplitN2 (s : bytes) (sep : ascii) : list bytes :=
  match cut s sep with
  | Some (before, after) => [before; after]
  | None => [s]
  end.

End Bytes.

Import Bytes.

(** ** Errors *)

Inductive error : Type :=
| BadRange (r : bytes)          (* fmt.Errorf("bad range: %s", r) *)
| ErrSyntax (s : bytes)         (* strconv.NumError with strconv.ErrSyntax *)
| ErrRange (s : bytes).         (* strconv.NumError with strconv.ErrRange *)

(** ** strconv.ParseUint(s, 10, 64) *)

Module Strconv.

Definition maxUint64 : Z := 2 ^ 64 - 1.

Definition cutoff : Z := maxUint64 / 10 + 1.

Definition is_digit (c : ascii) : bool :=
  (48 <=? byte_val c) && (byte_val c <=? 57).

(** The digit loop: [n] is the value read so far. *)
Fixpoint ParseUint_loop (s0 s : bytes) (n : Z) : Z + error :=
  match s with
  | [] => inl n
  | c :: s' =>
      if is_digit c then
        let d := byte_val c - 48 in
        if cutoff <=? n then inr (ErrRange s0)
        else
          let n := (n * 10) mod 2 ^ 64 in
          let n1 := (n + d) mod 2 ^ 64 in
          if (n1 <? n) || (maxUint64 <? n1) then inr (ErrRange s0)
          else ParseUint_loop s0 s' n1
      else inr (ErrSyntax s0)
  end.

Definition ParseUint (s : bytes) : Z + error :=
  match s with
  | [] => inr (ErrSyntax s)
  | _ => ParseUint_loop s s 0
  end.

End Strconv.

Import Strconv.

(** ** The range codec *)

(** [type ranges [][2]uint64] *)
Definition ranges := list (Z * Z).

Definition comma : ascii := ascii_of_nat 44.
Definition dash : ascii := ascii_of_nat 45.

(** The decoration stripped from the text: the cutset of [bytes.Trim], an
    opening bracket, a closing bracket and a double quote. *)
Definition decoration : bytes :=
  [ascii_of_nat 91; ascii_of_nat 93; ascii_of_nat 34].

(** The body of the loop of [UnmarshalJSON] up to the [append]: one token is
    split at its first dash and both bounds are parsed. *)
Definition parseRange (r : bytes) : (Z * Z) + error :=
  match SplitN2 r dash with
  | [p0; p1] =>
      match ParseUint (TrimSpace p0) with
      | inr err => inr err
      | inl lo =>
          match ParseUint (TrimSpace p1) with
          | inr err => inr err
          | inl hi => inl (lo, hi)
          end
      end
  | _ => inr (BadRange r)
  end.

(** The loop of [UnmarshalJSON] over the tokens: every range is appended to
    the receiver as soon as its token is parsed. *)
Fixpoint UnmarshalJSON_loop (tokens : list bytes) (rs : ranges)
  : ranges * option error :=
  match tokens with
  | [] => (rs, None)
  | r :: tokens' =>
      match parseRange r with
      | inr err => (rs, Some err)
      | inl rng => UnmarshalJSON_loop tokens' (rs ++ [rng])
      end
  end.

(** [func (rs *ranges) UnmarshalJSON(data []byte) (err error)]: the receiver
    before the call is [rs]; the result is the receiver after the call and the
    error returned. *)
Definition UnmarshalJSON (data : bytes) (rs : ranges) : ranges * option error :=
  let data := Trim data decoration in
  match data with
  | [] => (rs, None)
  | _ => UnmarshalJSON_loop (Split data comma) rs
  end.

Definition wrap64 (z : Z) : Z := z mod 2 ^ 64.

(** [func (rs ranges) size() uint64] *)
Definition size (rs : ranges) : Z :=
  fold_left (fun sz r => wrap64 (sz + wrap64 (1 + wrap64 (snd r - fst r)))) rs 0.

(** The text of a fresh range-list: [UnmarshalJSON] on an empty receiver. *)
Definition parse (text : string) : ranges * option error :=
  UnmarshalJSON (of_string text) [].


(** ** The snapshot *)

Definition float64 := float.

(** Modelled from the spec: the struct [resources] is declared outside
    master_state.go.  A resource pool holds cpu shares, memory and disk (both
    in KiB) and a port pool, a range-list; these are the four fields the
    extraction functions read. *)
Record resources : Type := {
  resources_CPUs : float64;
  resources_Disk : float64;
  resources_Mem : float64;
  resources_Ports : ranges
}.

(** Modelled from the spec: an attribute value ([json.RawMessage]) as the
    tagged variant of its shapes: a string, a number, a boolean, or anything
    else, the last three carried as their text. *)
Inductive RawMessage : Type :=
| RawString (s : string)
| RawNumber (text : string)
| RawBoolean (b : bool)
| RawUnknown (text : string).

(** Modelled from the spec: the struct [task] is declared outside
    master_state.go; no extraction function reads a task. *)
Inductive task : Type := Task.

(** [slave].  A value of this type is a node as one cycle reads it: the Go
    map [Attributes], whose keys are pairwise distinct, is the list of its
    entries in the order in which the one [range] loop of that cycle visits
    them.  The runtime chooses that order anew at each loop, so a later cycle
    on the same snapshot reads a node whose list is a permutation of this
    one ([same_node] below), not this list again. *)
Record slave : Type := {
  slave_PID : string;
  slave_Hostname : string;
  slave_Used : resources;
  slave_Unreserved : resources;
  slave_Total : resources;
  slave_Attributes : list (string * RawMessage)
}.

Record framework_resources : Type := {
  framework_resources_CPUs : float64;
  framework_resources_Disk : float64;
  framework_resources_Mem : float64
}.

Record framework : Type := {
  framework_Active : bool;
  framework_Tasks : list task;
  framework_Completed : list task;
  framework_Name : string;
  framework_Used : framework_resources;
  framework_Offered : framework_resources
}.

Record state : Type := {
  state_Slaves : list slave;
  state_Frameworks : list framework
}.

(** [var s state]: the zero value. *)
Definition zero_state : state := {| state_Slaves := []; state_Frameworks := [] |}.

(** ** Metric vectors *)

(** [prometheus.Desc]: the fully qualified name, the help text and the names
    of the labels. *)
Record Desc : Type := {
  fqName : string;
  help : string;
  variableLabels : list string
}.

(** [prometheus.BuildFQName] *)
Definition BuildFQName (namespace subsystem name : string) : string :=
  if String.eqb name EmptyString then EmptyString
  else if negb (String.eqb namespace EmptyString) && negb (String.eqb subsystem EmptyString)
       then (namespace ++ "_" ++ subsystem ++ "_" ++ name)%string
  else if negb (String.eqb namespace EmptyString) then (namespace ++ "_" ++ name)%string
  else if negb (String.eqb subsystem EmptyString) then (subsystem ++ "_" ++ name)%string
  else name.

Record GaugeOpts : Type := {
  Help : string;
  Namespace : string;
  Subsystem : string;
  Name : string
}.

Inductive vecKind : Type := GaugeVec | settableCounterVec.

(** A metric vector: its descriptor and its current sample set, the values
    keyed by the tuple of label values. *)
Record Collector : Type := {
  collector_desc : Desc;
  collector_kind : vecKind;
  collector_values : gmap (list string) float64
}.

(** One sample sent to the channel of [Collect]. *)
Record Metric : Type := {
  metric_desc : Desc;
  metric_labelValues : list string;
  metric_value : float64
}.

(** [prometheus.NewGaugeVec(opts, labelNames)] *)
Definition NewGaugeVec (opts : GaugeOpts) (labelNames : list string) : Collector :=
  {| collector_desc :=
       {| fqName := BuildFQName (Namespace opts) (Subsystem opts) (Name opts);
          help := Help opts;
          variableLabels := labelNames |};
     collector_kind := GaugeVec;
     collector_values := ∅ |}.

(** [GaugeVec.Reset()]: all samples are deleted. *)
Definition Reset (c : Collector) : Collector :=
  {| collector_desc := collector_desc c;
     collector_kind := collector_kind c;
     collector_values := ∅ |}.

(** [GaugeVec.WithLabelValues(lvs...).Set(v)]: the gauge at [lvs] is created
    if it is not there and set to [v].  (With a number of values other than
    the number of label names the library panics; every call below passes as
    many values as the vector has label names.) *)
Definition WithLabelValues_Set (lvs : list string) (v : float64) (c : Collector)
  : Collector :=
  {| collector_desc := collector_desc c;
     collector_kind := collector_kind c;
     collector_values := <[lvs := v]> (collector_values c) |}.

(** Modelled from the spec: [counter] and [settableCounterVec] are declared
    outside master_state.go.  The vector is named
    namespace_subsystem_name in the namespace mesos and starts empty. *)
Definition counter (subsystem name help : string) (labelNames : list string)
  : Collector :=
  {| collector_desc :=
       {| fqName := BuildFQName "mesos" subsystem name;
          help := help;
          variableLabels := labelNames |};
     collector_kind := settableCounterVec;
     collector_values := ∅ |}.

(** Modelled from the spec: [settableCounterVec.Set(v, lvs...)] is
    declared outside master_state.go.  It is the additive set: the row at
    [lvs] is recorded with value [v] and no other row is cleared. *)
Definition settableCounterVec_Set (v : float64) (lvs : list string) (c : Collector)
  : Collector :=
  {| collector_desc := collector_desc c;
     collector_kind := collector_kind c;
     collector_values := <[lvs := v]> (collector_values c) |}.

(** [Collector.Collect(ch)]: every sample of the current sample set is sent,
    in an order that the caller must not rely on. *)
Definition Collector_Collect (c : Collector) : list Metric :=
  (fun kv => {| metric_desc := collector_desc c;
                metric_labelValues := fst kv;
                metric_value := snd kv |}) <$> map_to_list (collector_values c).

(** ** The attribute normalizer *)

(** The characters of a label name: letters, digits and the underscore. *)
Definition validLabelChar (c : ascii) : bool :=
  let n := byte_val c in
  ((65 <=? n) && (n <=? 90)) || ((97 <=? n) && (n <=? 122))
  || ((48 <=? n) && (n <=? 57)) || (n =? 95).

Definition underscore : ascii := ascii_of_nat 95.

(** Modelled from the spec: [normaliseLabel] is declared outside
    master_state.go.  Every character outside [A-Za-z0-9_] is replaced by an
    underscore; a character is a byte of the string. *)
Fixpoint normaliseLabel (label : string) : string :=
  match label with
  | EmptyString => EmptyString
  | String c rest =>
      String (if validLabelChar c then c else underscore) (normaliseLabel rest)
  end.

(** Modelled from the spec: [normaliseLabelList] is declared outside
    master_state.go.  The allow-list is normalised name by name. *)
Definition normaliseLabelList (labels : list string) : list string :=
  normaliseLabel <$> labels.

(** Modelled from the spec: [stringInSlice] is declared outside
    master_state.go.  It tells whether the string is an element of the list. *)
Definition stringInSlice (a : string) (l : list string) : bool :=
  existsb (String.eqb a) l.

(** Modelled from the spec: [attributeString] is declared outside
    master_state.go.  Only a value that is a string is accepted; a number, a
    boolean or a structured value is not a string ([None]). *)
Definition attributeString (attribute : RawMessage) : option string :=
  match attribute with
  | RawString s => Some s
  | _ => None
  end.

(** Modelled from the spec: [getLabelValuesFromMap] is declared outside
    master_state.go.  The values of the labels are listed in the order of the
    label names; a name that the map lacks reads as the empty string, as a Go
    map does. *)
Definition getLabelValuesFromMap (labels : gmap string string)
    (orderedLabelKeys : list string) : list string :=
  (fun key => default EmptyString (labels !! key)) <$> orderedLabelKeys.

(** ** The registry of metrics *)

(** The conversion [float64(n)] of a [uint64]: the nearest binary64 float,
    ties to even.  Below 2^63 this is the conversion of a 63-bit integer;
    from 2^63 on the number is halved with its lowest bit kept as a sticky
    bit, converted, and doubled, which rounds the same way. *)
Definition float64_of_uint64 (n : Z) : float64 :=
  if n <? 2 ^ 63 then PrimFloat.of_uint63 (Uint63.of_Z n)
  else
    let h := PrimFloat.of_uint63 (Uint63.of_Z (Z.lor (Z.shiftr n 1) (Z.land n 1))) in
    (h + h)%float.

(** An extraction function, [func(st, c)] on a pointer to the state and a
    collector: the collector before the call to the collector after it. *)
Definition extraction := state -> Collector -> Collector.

(** The closure of a node gauge: the vector is reset, then one value per node
    is set at the labels [(s.PID, s.Hostname)]. *)
Definition slave_gauge (value : slave -> float64) : extraction :=
  fun st c =>
    fold_left
      (fun c s => WithLabelValues_Set [slave_PID s; slave_Hostname s] (value s) c)
      (state_Slaves st) (Reset c).

(** The closure of a framework gauge: the vector is reset, then one value per
    framework is set at the label [f.Name]. *)
Definition framework_gauge (value : framework -> float64) : extraction :=
  fun st c =>
    fold_left
      (fun c f => WithLabelValues_Set [framework_Name f] (value f) c)
      (state_Frameworks st) (Reset c).

Definition labels : list string := ["slave"; "hostname"]%string.
Definition framework_labels : list string := ["framework"]%string.

Definition slave_opts (help name : string) : GaugeOpts :=
  {| Help := help; Namespace := "mesos"; Subsystem := "slave"; Name := name |}.

Definition framework_opts (help name : string) : GaugeOpts :=
  {| Help := help; Namespace := "mesos"; Subsystem := "framework"; Name := name |}.

(** The map literal of [newMasterStateCollector], entry by entry in the order
    of the source. *)
Definition fixed_metrics : list (Collector * extraction) :=
  [ (NewGaugeVec (slave_opts "Total slave CPUs (fractional)" "cpus") labels,
     slave_gauge (fun s => resources_CPUs (slave_Total s)));
    (NewGaugeVec (slave_opts "Used slave CPUs (fractional)" "cpus_used") labels,
     slave_gauge (fun s => resources_CPUs (slave_Used s)));
    (NewGaugeVec (slave_opts "Unreserved slave CPUs (fractional)" "cpus_unreserved") labels,
     slave_gauge (fun s => resources_CPUs (slave_Unreserved s)));
    (NewGaugeVec (slave_opts "Total slave memory in bytes" "mem_bytes") labels,
     slave_gauge (fun s => (resources_Mem (slave_Total s) * 1024)%float));
    (NewGaugeVec (slave_opts "Used slave memory in bytes" "mem_used_bytes") labels,
     slave_gauge (fun s => (resources_Mem (slave_Used s) * 1024)%float));
    (NewGaugeVec (slave_opts "Unreserved slave memory in bytes" "mem_unreserved_bytes") labels,
     slave_gauge (fun s => (resources_Mem (slave_Unreserved s) * 1024)%float));
    (NewGaugeVec (slave_opts "Total slave disk space in bytes" "disk_bytes") labels,
     slave_gauge (fun s => (resources_Disk (slave_Total s) * 1024)%float));
    (NewGaugeVec (slave_opts "Used slave disk space in bytes" "disk_used_bytes") labels,
     slave_gauge (fun s => (resources_Disk (slave_Used s) * 1024)%float));
    (NewGaugeVec (slave_opts "Unreserved slave disk in bytes" "disk_unreserved_bytes") labels,
     slave_gauge (fun s => (resources_Disk (slave_Unreserved s) * 1024)%float));
    (NewGaugeVec (slave_opts "Total slave ports" "ports") labels,
     slave_gauge (fun s => float64_of_uint64 (size (resources_Ports (slave_Total s)))));
    (NewGaugeVec (slave_opts "Used slave ports" "ports_used") labels,
     slave_gauge (fun s => float64_of_uint64 (size (resources_Ports (slave_Used s)))));
    (NewGaugeVec (slave_opts "Unreserved slave ports" "ports_unreserved") labels,
     slave_gauge (fun s => float64_of_uint64 (size (resources_Ports (slave_Unreserved s)))));
    (NewGaugeVec (framework_opts "Active framework" "active") framework_labels,
     framework_gauge (fun f => if framework_Active f then 1%float else 0%float));
    (NewGaugeVec (framework_opts "Framework cpu used" "cpu_used") framework_labels,
     framework_gauge (fun f => framework_resources_CPUs (framework_Used f)));
    (NewGaugeVec (framework_opts "Framework disk used" "disk_used") framework_labels,
     framework_gauge (fun f => framework_resources_Disk (framework_Used f)));
    (NewGaugeVec (framework_opts "Framework memory used" "mem_used") framework_labels,
     framework_gauge (fun f => framework_resources_Mem (framework_Used f)));
    (NewGaugeVec (framework_opts "Framework cpu offered" "cpu_offered") framework_labels,
     framework_gauge (fun f => framework_resources_CPUs (framework_Offered f)));
    (NewGaugeVec (framework_opts "Framework mem offered" "mem_offered") framework_labels,
     framework_gauge (fun f => framework_resources_Mem (framework_Offered f)));
    (NewGaugeVec (framework_opts "Framework disk offered" "disk_offered") framework_labels,
     framework_gauge (fun f => framework_resources_Disk (framework_Offered f))) ].

(** The first inner loop of the closure of the attribute metric: every
    allow-listed label is defaulted to the empty string. *)
Definition default_labels (normalisedAttributeLabels : list string)
    (slaveAttributesExport : gmap string string) : gmap string string :=
  fold_left (fun export label => <[label := EmptyString]> export)
    normalisedAttributeLabels slaveAttributesExport.

(** One turn of the second inner loop, for the attribute [key] of value
    [value]: the label is set when the normalised key is allow-listed and
    the value is a string. *)
Definition export_attribute (normalisedAttributeLabels : list string)
    (slaveAttributesExport : gmap string string) (kv : string * RawMessage)
  : gmap string string :=
  let normalisedLabel := normaliseLabel (fst kv) in
  if stringInSlice normalisedLabel normalisedAttributeLabels then
    match attributeString (snd kv) with
    | Some attribute => <[normalisedLabel := attribute]> slaveAttributesExport
    | None => slaveAttributesExport
    end
  else slaveAttributesExport.

(** The label map built for one node by the closure of the attribute metric:
    the node identity, the defaults, then the attributes of the node. *)
Definition slaveAttributesExport (normalisedAttributeLabels : list string)
    (s : slave) : gmap string string :=
  let export : gmap string string := {[ "slave"%string := slave_PID s ]} in
  let export := default_labels normalisedAttributeLabels export in
  fold_left (export_attribute normalisedAttributeLabels) (slave_Attributes s) export.

(** The closure of the attribute metric: no reset; one row of value 1 is set
    per node. *)
Definition slave_attributes
    (normalisedAttributeLabels slaveAttributesLabelsExport : list string)
  : extraction :=
  fun st c =>
    fold_left
      (fun c s =>
         settableCounterVec_Set 1%float
           (getLabelValuesFromMap
              (slaveAttributesExport normalisedAttributeLabels s)
              slaveAttributesLabelsExport) c)
      (state_Slaves st) c.

(** [masterCollector]: the embedded HTTP client is the source of the fetch
    outcome, an input of [Collect]; the Go map [metrics], whose keys are
    pointers to distinct vectors, is the list of its entries.  The order in
    which [range] visits a Go map is left to the runtime: the list gives one
    such order, and [Collect_loop_order] below shows that another order only
    permutes the results. *)
Record masterCollector : Type := {
  metrics : list (Collector * extraction)
}.

(** [func newMasterStateCollector(httpClient, slaveAttributeLabels)] *)
Definition newMasterStateCollector (slaveAttributeLabels : list string)
  : masterCollector :=
  let metrics := fixed_metrics in
  let metrics :=
    if (0 <? length slaveAttributeLabels)%nat then
      let normalisedAttributeLabels := normaliseLabelList slaveAttributeLabels in
      let slaveAttributesLabelsExport := labels ++ normalisedAttributeLabels in
      metrics ++
        [ (counter "slave" "attributes" "Attributes assigned to slaves"
             slaveAttributesLabelsExport,
           slave_attributes normalisedAttributeLabels slaveAttributesLabelsExport) ]
    else metrics in
  {| metrics := metrics |}.

(** ** The collection cycle *)

(** The outcome of the fetch of the snapshot: on success the state that this
    cycle decodes, with the attributes of every node in the order in which
    this cycle visits them. *)
Inductive fetched : Type :=
| FetchOk (snapshot : state)
| FetchError.

(** Modelled from the spec: [fetchAndDecode] is declared outside
    master_state.go.  A successful fetch decodes the snapshot into the
    target; a failed one leaves the target as it was. *)
Definition fetchAndDecode (outcome : fetched) (target : state) : state :=
  match outcome with
  | FetchOk snapshot => snapshot
  | FetchError => target
  end.

(** The loop of [Collect]: each metric is recomputed by its extraction
    function, then its samples are sent to the channel. *)
Fixpoint Collect_loop (s : state) (ms : list (Collector * extraction))
  : list (Collector * extraction) * list Metric :=
  match ms with
  | [] => ([], [])
  | (c, set) :: ms' =>
      let c' := set s c in
      let sent := Collector_Collect c' in
      let '(ms'', ch) := Collect_loop s ms' in
      ((c', set) :: ms'', sent ++ ch)
  end.

(** [masterCollector.Collect(ch)]: the result is the collector after the
    cycle and the samples sent to the channel.  The outcome of the fetch is
    not looked at. *)
Definition Collect (outcome : fetched) (c : masterCollector)
  : masterCollector * list Metric :=
  let s := fetchAndDecode outcome zero_state in
  let '(ms, ch) := Collect_loop s (metrics c) in
  ({| metrics := ms |}, ch).

(** [masterCollector.Describe(ch)]: the descriptor of every metric is sent. *)
Definition Describe (c : masterCollector) : list Desc :=
  (fun e => collector_desc (fst e)) <$> metrics c.

(** * Specification-side notions

    The notions in which the properties below are stated; they are not part
    of the program. *)

(** ** Range codec *)

(** The sum of the lengths [hi - lo + 1] of the pairs, over the integers. *)
Definition range_sum (rs : ranges) : Z :=
  fold_right (fun r acc => (snd r - fst r + 1) + acc) 0 rs.

(** A bound that is refused: after trimming, its text is not read as an
    unsigned 64-bit decimal number. *)
Definition bad_bound (p : bytes) : Prop :=
  exists err, ParseUint (TrimSpace p) = inr err.

(** A malformed token: it holds no dash, or one of the two bounds around its
    first dash is refused. *)
Inductive malformed (r : bytes) : Prop :=
| malformed_no_dash : mem dash r = false -> malformed r
| malformed_bound p0 p1 :
    cut r dash = Some (p0, p1) -> bad_bound p0 \/ bad_bound p1 -> malformed r.

(** ** Attribute normalizer *)

(** Two names that differ only in characters outside [A-Za-z0-9_], at the
    same positions. *)
Definition differ_only_in_invalid (x y : string) : Prop :=
  Forall2 (fun a b => a = b \/ (validLabelChar a = false /\ validLabelChar b = false))
    (list_ascii_of_string x) (list_ascii_of_string y).

(** ** Registry *)

(** The name of the attribute metric. *)
Definition attributes_name : string := "mesos_slave_attributes".

(** The name under which a registry entry reports. *)
Definition entry_name (e : Collector * extraction) : string :=
  fqName (collector_desc (fst e)).

(** The descriptors of the gauge-style metrics. *)
Definition gauge_descs : list Desc :=
  (fun e => collector_desc (fst e)) <$> fixed_metrics.

(** An extraction function that leaves the descriptor and the kind of its
    vector alone. *)
Definition keeps_desc (set : extraction) : Prop :=
  forall s c,
    collector_desc (set s c) = collector_desc c /\
    collector_kind (set s c) = collector_kind c.

(** The three shapes of a registry entry, told by its descriptor, its kind
    and its extraction function. *)
Inductive entry_shape (attrs : list string) : Desc -> vecKind -> extraction -> Prop :=
| slave_entry d value :
    variableLabels d = labels -> fqName d <> attributes_name ->
    entry_shape attrs d GaugeVec (slave_gauge value)
| framework_entry d value :
    variableLabels d = framework_labels -> fqName d <> attributes_name ->
    entry_shape attrs d GaugeVec (framework_gauge value)
| attributes_entry d :
    attrs <> [] -> fqName d = attributes_name ->
    variableLabels d = labels ++ normaliseLabelList attrs ->
    entry_shape attrs d settableCounterVec
      (slave_attributes (normaliseLabelList attrs) (labels ++ normaliseLabelList attrs)).

Definition entry_ok (attrs : list string) (e : Collector * extraction) : Prop :=
  entry_shape attrs (collector_desc (fst e)) (collector_kind (fst e)) (snd e).

(** A registry some cycles after its construction: entry by entry the
    descriptor, the kind and the extraction function of the registry built
    at startup. *)
Definition same_shape (ms ms0 : list (Collector * extraction)) : Prop :=
  Forall2 (fun e e0 =>
             collector_desc (fst e) = collector_desc (fst e0) /\
             collector_kind (fst e) = collector_kind (fst e0) /\
             snd e = snd e0) ms ms0.

(** ** Collection cycles *)

(** One metric of the registry after its extraction function has run. *)
Definition step (s : state) (e : Collector * extraction) : Collector * extraction :=
  (snd e s (fst e), snd e).

(** The registry after a sequence of cycles, run one after the other. *)
Definition after (outcomes : list fetched) (c : masterCollector) : masterCollector :=
  fold_left (fun c outcome => fst (Collect outcome c)) outcomes c.

(** The samples sent to the channel by one cycle, run on the registry built
    for the allow-list [attrs] after a history of earlier cycles. *)
Definition cycle_output (attrs : list string) (history : list fetched)
    (outcome : fetched) : list Metric :=
  snd (Collect outcome (after history (newMasterStateCollector attrs))).

(** The samples of one descriptor among those sent to the channel. *)
Definition samples_of (name : string) (ch : list Metric) : list Metric :=
  filter (fun m => fqName (metric_desc m) = name) ch.

(** The label tuples of a node and of a framework. *)
Definition slave_key (s : slave) : list string := [slave_PID s; slave_Hostname s].
Definition framework_key (f : framework) : list string := [framework_Name f].

(** The label tuples of the entities that a fixed descriptor reports on: the
    nodes for a descriptor labelled by node, the frameworks otherwise; one
    tuple per entity of the snapshot, in order. *)
Definition entity_label_tuples (d : Desc) (st : state) : list (list string) :=
  if decide (variableLabels d = labels)
  then slave_key <$> state_Slaves st
  else framework_key <$> state_Frameworks st.

(** The sample set after one [Set] per element of [xs], starting from [m]. *)
Definition set_all {A : Type} (key : A -> list string) (value : A -> float64)
    (xs : list A) (m : gmap (list string) float64) : gmap (list string) float64 :=
  fold_left (fun m x => <[key x := value x]> m) xs m.

(** The label values of the row that the attribute closure sets for a node. *)
Definition attribute_row (normalisedAttributeLabels : list string) (s : slave)
  : list string :=
  getLabelValuesFromMap (slaveAttributesExport normalisedAttributeLabels s)
    (labels ++ normalisedAttributeLabels).

(** ** Unit conversion *)

(** What the node metrics of cpu, memory and disk are to report: cpu shares
    as they are, memory and disk times 1024. *)
Definition node_quantities : list (string * (slave -> float64)) :=
  [ ("mesos_slave_cpus"%string, fun s => resources_CPUs (slave_Total s));
    ("mesos_slave_cpus_used"%string, fun s => resources_CPUs (slave_Used s));
    ("mesos_slave_cpus_unreserved"%string, fun s => resources_CPUs (slave_Unreserved s));
    ("mesos_slave_mem_bytes"%string, fun s => (resources_Mem (slave_Total s) * 1024)%float);
    ("mesos_slave_mem_used_bytes"%string, fun s => (resources_Mem (slave_Used s) * 1024)%float);
    ("mesos_slave_mem_unreserved_bytes"%string,
      fun s => (resources_Mem (slave_Unreserved s) * 1024)%float);
    ("mesos_slave_disk_bytes"%string, fun s => (resources_Disk (slave_Total s) * 1024)%float);
    ("mesos_slave_disk_used_bytes"%string,
      fun s => (resources_Disk (slave_Used s) * 1024)%float);
    ("mesos_slave_disk_unreserved_bytes"%string,
      fun s => (resources_Disk (slave_Unreserved s) * 1024)%float) ].

(** What the framework metrics of used and offered resources are to report:
    the values of the snapshot as they are. *)
Definition framework_quantities : list (string * (framework -> float64)) :=
  [ ("mesos_framework_cpu_used"%string, fun f => framework_resources_CPUs (framework_Used f));
    ("mesos_framework_disk_used"%string, fun f => framework_resources_Disk (framework_Used f));
    ("mesos_framework_mem_used"%string, fun f => framework_resources_Mem (framework_Used f));
    ("mesos_framework_cpu_offered"%string,
      fun f => framework_resources_CPUs (framework_Offered f));
    ("mesos_framework_mem_offered"%string,
      fun f => framework_resources_Mem (framework_Offered f));
    ("mesos_framework_disk_offered"%string,
      fun f => framework_resources_Disk (framework_Offered f)) ].

(** ** Snapshots used as examples *)

Definition pool (cpus disk mem : float64) (ports : ranges) : resources :=
  {| resources_CPUs := cpus; resources_Disk := disk; resources_Mem := mem;
     resources_Ports := ports |}.

Definition no_resources : framework_resources :=
  {| framework_resources_CPUs := 0%float; framework_resources_Disk := 0%float;
     framework_resources_Mem := 0%float |}.

Definition framework_named (name : string) (active : bool) : framework :=
  {| framework_Active := active; framework_Tasks := []; framework_Completed := [];
     framework_Name := name; framework_Used := no_resources;
     framework_Offered := no_resources |}.

(** A snapshot with two frameworks of the same name. *)
Definition twin_frameworks : state :=
  {| state_Slaves := [];
     state_Frameworks := [framework_named "spark" true; framework_named "spark" false] |}.

(** A node whose total memory is 2 KiB and whose attribute rack is r1. *)
Definition small_node : slave :=
  {| slave_PID := "s1"; slave_Hostname := "h1";
     slave_Used := pool 0%float 0%float 0%float [];
     slave_Unreserved := pool 0%float 0%float 0%float [];
     slave_Total := pool 4%float 1024%float 2%float (fst (parse "31000-32000"));
     slave_Attributes := [("rack"%string, RawString "r1")] |}.

Definition small_snapshot : state :=
  {| state_Slaves := [small_node]; state_Frameworks := [] |}.

(** Another node, with no attribute, and the snapshot in which it has taken
    the place of [small_node]. *)
Definition other_node : slave :=
  {| slave_PID := "s2"; slave_Hostname := "h2";
     slave_Used := pool 0%float 0%float 0%float [];
     slave_Unreserved := pool 0%float 0%float 0%float [];
     slave_Total := pool 8%float 0%float 0%float [];
     slave_Attributes := [] |}.

Definition other_snapshot : state :=
  {| state_Slaves := [other_node]; state_Frameworks := [] |}.

(** The node of the end-to-end scenario: 4 cpus, 1024 KiB of memory and of
    disk, the ports 31000 to 32000, the attribute rack r1. *)
Definition scenario_node : slave :=
  {| slave_PID := "s1"; slave_Hostname := "h1";
     slave_Used := pool 0%float 0%float 0%float [];
     slave_Unreserved := pool 0%float 0%float 0%float [];
     slave_Total := pool 4%float 1024%float 1024%float (fst (parse "31000-32000"));
     slave_Attributes := [("rack"%string, RawString "r1")] |}.

Definition scenario : state :=
  {| state_Slaves := [scenario_node]; state_Frameworks := [] |}.

(** The entry of mesos_framework_active in the map literal. *)
Definition framework_active_entry : Collector * extraction :=
  (NewGaugeVec (framework_opts "Active framework" "active") framework_labels,
   framework_gauge (fun f => if framework_Active f then 1%float else 0%float)).


(** The row of [small_node] as a sample of that metric. *)
Definition rack_sample : Metric :=
  {| metric_desc :=
       {| fqName := "mesos_slave_attributes";
          help := "Attributes assigned to slaves";
          variableLabels := ["slave"; "hostname"; "rack"]%string |};
     metric_labelValues := ["s1"; EmptyString; "r1"]%string;
     metric_value := 1%float |}.

(** ** Notions for the further properties *)

(** The number of occurrences of a byte in a text. *)
Fixpoint count_byte (sep : ascii) (s : bytes) : nat :=
  match s with
  | [] => 0%nat
  | c :: s' => ((if Ascii.eqb c sep then 1 else 0) + count_byte sep s')%nat
  end.

(** The value of the decimal digits of [s], read after the value [n]. *)
Definition decimal_from (n : Z) (s : bytes) : Z :=
  fold_left (fun acc c => acc * 10 + (byte_val c - 48)) s n.

(** The text is a decimal number of value [n] that fits 64 bits: it is not
    empty, holds digits only, and its value is at most 2^64-1. *)
Definition is_number (s : bytes) (n : Z) : Prop :=
  s <> [] /\ forallb is_digit s = true /\ decimal_from 0 s = n /\ n <= maxUint64.

(** What the three port metrics of a node report: the size of the port
    pool, converted to a float. *)
Definition port_quantities : list (string * (slave -> float64)) :=
  [ ("mesos_slave_ports"%string,
      fun s => float64_of_uint64 (size (resources_Ports (slave_Total s))));
    ("mesos_slave_ports_used"%string,
      fun s => float64_of_uint64 (size (resources_Ports (slave_Used s))));
    ("mesos_slave_ports_unreserved"%string,
      fun s => float64_of_uint64 (size (resources_Ports (slave_Unreserved s)))) ].

(** What mesos_framework_active reports. *)
Definition active_value (f : framework) : float64 :=
  if framework_Active f then 1%float else 0%float.

(** The entry of mesos_slave_cpus in the map literal. *)
Definition slave_cpus_entry : Collector * extraction :=
  (NewGaugeVec (slave_opts "Total slave CPUs (fractional)" "cpus") labels,
   slave_gauge (fun s => resources_CPUs (slave_Total s))).

(** A snapshot in which two nodes have the labels of [small_node]. *)
Definition twin_node : slave :=
  {| slave_PID := "s1"; slave_Hostname := "h1";
     slave_Used := pool 0%float 0%float 0%float [];
     slave_Unreserved := pool 0%float 0%float 0%float [];
     slave_Total := pool 16%float 0%float 0%float [];
     slave_Attributes := [] |}.

Definition twin_nodes : state :=
  {| state_Slaves := [small_node; twin_node]; state_Frameworks := [] |}.

(** A node with the given attributes, in the order in which they are
    visited. *)
Definition rack_node (attributes : list (string * RawMessage)) : slave :=
  {| slave_PID := "s1"; slave_Hostname := "h1";
     slave_Used := pool 0%float 0%float 0%float [];
     slave_Unreserved := pool 0%float 0%float 0%float [];
     slave_Total := pool 0%float 0%float 0%float [];
     slave_Attributes := attributes |}.




(** One node as two cycles read it: the fields are the same and the
    attribute map holds the same entries, visited in orders that may
    differ. *)
Definition same_node (s1 s2 : slave) : Prop :=
  slave_PID s1 = slave_PID s2 /\
  slave_Hostname s1 = slave_Hostname s2 /\
  slave_Used s1 = slave_Used s2 /\
  slave_Unreserved s1 = slave_Unreserved s2 /\
  slave_Total s1 = slave_Total s2 /\
  slave_Attributes s1 ≡ₚ slave_Attributes s2.

(** One snapshot as two cycles read it. *)
Definition same_snapshot (S1 S2 : state) : Prop :=
  Forall2 same_node (state_Slaves S1) (state_Slaves S2) /\
  state_Frameworks S1 = state_Frameworks S2.

(** No two attributes of the node are exported under one allow-listed label
    with different strings. *)
Definition collision_free (normalisedAttributeLabels : list string) (s : slave) : Prop :=
  forall k v a k' v' a',
    (k, v) ∈ slave_Attributes s -> (k', v') ∈ slave_Attributes s ->
    normaliseLabel k = normaliseLabel k' ->
    normaliseLabel k ∈ normalisedAttributeLabels ->
    attributeString v = Some a -> attributeString v' = Some a' -> a = a'.

(** The snapshot of the one node [rack_node]. *)
Definition rack_snapshot (attributes : list (string * RawMessage)) : state :=
  {| state_Slaves := [rack_node attributes]; state_Frameworks := [] |}.

(** ** Tactics *)

(** The entry at position [i] of the map literal. *)
Ltac registered_at i :=
  eexists; split;
  [apply (list_elem_of_lookup_2 _ i); reflexivity | split; reflexivity].

(** * Properties of the range codec *)

Example parse_empty : parse "" = ([], None).
Proof. reflexivity. Qed.

Example parse_5_5 : parse "5-5" = ([(5, 5)], None) /\ size [(5, 5)] = 1.
Proof. split; reflexivity. Qed.

Example parse_decorated :
  parse "[31000-32000, 40 - 41]" = ([(31000, 32000); (40, 41)], None).
Proof. vm_compute. reflexivity. Qed.

Example parse_max :
  parse "0-18446744073709551615" = ([(0, 18446744073709551615)], None).
Proof. vm_compute. reflexivity. Qed.

Example parse_overflow :
  parse "0-18446744073709551616"
  = ([], Some (ErrRange (of_string "18446744073709551616"))).
Proof. vm_compute. reflexivity. Qed.

Section RangeCodec.

Lemma cut_None_mem (s : bytes) (sep : ascii) :
  cut s sep = None <-> mem sep s = false.
Proof.
  induction s as [|c s IH]; simpl; [tauto|].
  rewrite (Ascii.eqb_sym sep c).
  destruct (Ascii.eqb c sep); simpl.
  - split; discriminate.
  - destruct (cut s sep) as [[b a]|].
    + split; [discriminate|]. intros H. apply IH in H. discriminate.
    + split; [intros _; now apply IH | reflexivity].
Qed.

Lemma parseRange_error_malformed (r : bytes) :
  malformed r <-> exists err, parseRange r = inr err.
Proof.
  unfold parseRange, SplitN2. split.
  - intros [Hno | p0 p1 Hcut Hbad].
    + apply cut_None_mem in Hno. rewrite Hno. eauto.
    + rewrite Hcut.
      destruct (ParseUint (TrimSpace p0)) as [lo|e0] eqn:E0; [|eauto].
      destruct (ParseUint (TrimSpace p1)) as [hi|e1] eqn:E1; [|eauto].
      destruct Hbad as [[e He]|[e He]]; congruence.
  - intros [err Herr].
    destruct (cut r dash) as [[p0 p1]|] eqn:Hcut.
    + apply (malformed_bound r p0 p1 Hcut).
      destruct (ParseUint (TrimSpace p0)) as [lo|e0] eqn:E0.
      * destruct (ParseUint (TrimSpace p1)) as [hi|e1] eqn:E1; [discriminate|].
        right. exists e1. exact E1.
      * left. exists e0. exact E0.
    + apply malformed_no_dash. now apply cut_None_mem.
Qed.

(** On an error the loop has appended the ranges of the tokens before the
    first malformed one. *)
Lemma UnmarshalJSON_loop_error (tokens : list bytes) :
  forall rs rs' err,
    UnmarshalJSON_loop tokens rs = (rs', Some err) ->
    exists good bad rest parsed,
      tokens = good ++ bad :: rest /\
      Forall2 (fun r rng => parseRange r = inl rng) good parsed /\
      parseRange bad = inr err /\
      rs' = rs ++ parsed.
Proof.
  induction tokens as [|r tokens IH]; simpl; intros rs rs' err H.
  - discriminate.
  - destruct (parseRange r) as [rng|e] eqn:E.
    + destruct (IH _ _ _ H) as (good & bad & rest & parsed & -> & HF & Hbad & ->).
      exists (r :: good), bad, rest, (rng :: parsed).
      repeat split; auto.
      now rewrite <- app_assoc.
    + inversion H; subst.
      exists [], r, tokens, []. repeat split; auto.
      now rewrite app_nil_r.
Qed.

(** Without an error every token has been parsed and appended. *)
Lemma UnmarshalJSON_loop_ok (tokens : list bytes) :
  forall rs rs',
    UnmarshalJSON_loop tokens rs = (rs', None) ->
    exists parsed,
      Forall2 (fun r rng => parseRange r = inl rng) tokens parsed /\
      rs' = rs ++ parsed.
Proof.
  induction tokens as [|r tokens IH]; simpl; intros rs rs' H.
  - inversion H; subst. exists []. split; [constructor | now rewrite app_nil_r].
  - destruct (parseRange r) as [rng|e] eqn:E; [|discriminate].
    destruct (IH _ _ H) as (parsed & HF & ->).
    exists (rng :: parsed). split; [now constructor | now rewrite <- app_assoc].
Qed.

(** A malformed token anywhere among the tokens makes the loop fail. *)
Lemma UnmarshalJSON_loop_malformed (tokens : list bytes) :
  forall rs r,
    In r tokens -> malformed r ->
    exists err, snd (UnmarshalJSON_loop tokens rs) = Some err.
Proof.
  induction tokens as [|t tokens IH]; simpl; intros rs r Hin Hbad; [tauto|].
  destruct (parseRange t) as [rng|e] eqn:E.
  - destruct Hin as [->|Hin].
    + apply parseRange_error_malformed in Hbad as [err Herr]. congruence.
    + eapply IH; eauto.
  - simpl. eauto.
Qed.

Lemma wrap64_add_l (a b : Z) : wrap64 (wrap64 a + b) = wrap64 (a + b).
Proof. unfold wrap64. apply Z.add_mod_idemp_l. lia. Qed.

Lemma wrap64_add_r (a b : Z) : wrap64 (a + wrap64 b) = wrap64 (a + b).
Proof. unfold wrap64. apply Z.add_mod_idemp_r. lia. Qed.

Lemma range_sum_cons (r : Z * Z) (rs : ranges) :
  range_sum (r :: rs) = (snd r - fst r + 1) + range_sum rs.
Proof. reflexivity. Qed.

Lemma size_fold (rs : ranges) :
  forall acc,
    fold_left (fun sz r => wrap64 (sz + wrap64 (1 + wrap64 (snd r - fst r)))) rs
      (wrap64 acc)
    = wrap64 (acc + range_sum rs).
Proof.
  induction rs as [|[lo hi] rs IH]; intros acc.
  - cbn. now rewrite Z.add_0_r.
  - rewrite range_sum_cons. cbn [fold_left fst snd].
    rewrite wrap64_add_l, wrap64_add_r, Z.add_assoc, wrap64_add_r.
    rewrite IH. f_equal. lia.
Qed.

Lemma size_wrap (rs : ranges) : size rs = wrap64 (range_sum rs).
Proof. pose proof (size_fold rs 0) as H. rewrite Z.add_0_l in H. exact H. Qed.

Lemma range_sum_app (rs1 rs2 : ranges) :
  range_sum (rs1 ++ rs2) = range_sum rs1 + range_sum rs2.
Proof.
  induction rs1 as [|r rs1 IH]; [reflexivity|].
  rewrite <- app_comm_cons, !range_sum_cons. lia.
Qed.

Lemma range_sum_nonneg (rs : ranges) :
  Forall (fun r => fst r <= snd r) rs -> 0 <= range_sum rs.
Proof.
  induction 1 as [|r rs Hr _ IH]; [cbn; lia|].
  rewrite range_sum_cons. lia.
Qed.

(** A text that is empty or holds a byte that is no decimal digit is not a
    number for [ParseUint]. *)
Lemma ParseUint_loop_not_digit (s0 s : bytes) :
  forall n c, In c s -> is_digit c = false ->
    exists err, ParseUint_loop s0 s n = inr err.
Proof.
  induction s as [|d s IH]; simpl; intros n c Hin Hc; [tauto|].
  destruct (is_digit d) eqn:Hd.
  - destruct Hin as [->|Hin]; [congruence|].
    destruct (cutoff <=? n); [eauto|].
    match goal with |- context [if ?b then _ else _] => destruct b end; eauto.
  - eauto.
Qed.

Lemma ParseUint_not_number (s : bytes) :
  s = [] \/ (exists c, In c s /\ is_digit c = false) ->
  exists err, ParseUint s = inr err.
Proof.
  intros [->|(c & Hin & Hc)]; [simpl; eauto|].
  unfold ParseUint. destruct s as [|d s]; [simpl in Hin; tauto|].
  eapply ParseUint_loop_not_digit; eauto.
Qed.

End RangeCodec.

(** C1, as stated, does not hold: a parse that fails on a later token has
    already appended the ranges of the tokens before it to the receiver.
    The text [1-2,x] fails on its second token and leaves the range (1,2) in a
    receiver that was empty. *)
Lemma UnmarshalJSON_error_partial_counterexample :
  ~ (forall data rs rs' err,
       UnmarshalJSON data rs = (rs', Some err) -> rs' = rs).
Proof.
  intros H.
  specialize (H (of_string "1-2,x") [] [(1, 2)] (BadRange (of_string "x"))).
  assert (E : UnmarshalJSON (of_string "1-2,x") [] =
              ([(1, 2)], Some (BadRange (of_string "x")))) by (vm_compute; reflexivity).
  specialize (H E). discriminate H.
Qed.

(** C1, amended.  When [UnmarshalJSON] returns an error, the error is that of
    the first malformed token, and the receiver holds its previous ranges
    followed by the ranges of the tokens that precede the malformed one; it
    is left unchanged exactly when the malformed token is the first one. *)
Theorem UnmarshalJSON_error_receiver (data : bytes) (rs rs' : ranges) (err : error) :
  UnmarshalJSON data rs = (rs', Some err) ->
  exists good bad rest parsed,
    Split (Trim data decoration) comma = good ++ bad :: rest /\
    Forall2 (fun r rng => parseRange r = inl rng) good parsed /\
    parseRange bad = inr err /\
    rs' = rs ++ parsed /\
    (rs' = rs <-> good = []).
Proof.
  unfold UnmarshalJSON. intros H.
  destruct (Trim data decoration) as [|c t] eqn:Ht; [discriminate|].
  destruct (UnmarshalJSON_loop_error _ _ _ _ H)
    as (good & bad & rest & parsed & Hsplit & HF & Hbad & ->).
  exists good, bad, rest, parsed. repeat split; auto.
  - intros Heq. rewrite <- (app_nil_r rs) in Heq at 2.
    apply app_inv_head in Heq. subst parsed. now inversion HF.
  - intros ->. inversion HF. now rewrite app_nil_r.
Qed.

(** An instance: the third of four tokens is malformed and the receiver
    held one range. *)
Lemma UnmarshalJSON_error_receiver_witness :
  UnmarshalJSON (of_string "7-9,1-2,x,4-5") [(0, 0)]
    = ([(0, 0); (7, 9); (1, 2)], Some (BadRange (of_string "x"))) /\
  exists good bad rest parsed,
    Split (Trim (of_string "7-9,1-2,x,4-5") decoration) comma = good ++ bad :: rest /\
    Forall2 (fun r rng => parseRange r = inl rng) good parsed /\
    parseRange bad = inr (BadRange (of_string "x")) /\
    [(0, 0); (7, 9); (1, 2)] = [(0, 0)] ++ parsed /\
    ([(0, 0); (7, 9); (1, 2)] = [(0, 0)] <-> good = []).
Proof.
  split; [vm_compute; reflexivity|].
  apply (UnmarshalJSON_error_receiver (of_string "7-9,1-2,x,4-5") [(0, 0)]).
  vm_compute; reflexivity.
Defined.

(** C7, as stated, does not hold over the integers: the sum is taken in
    [uint64].  The single pair from 0 to 2^64-1, which the text
    [0-18446744073709551615] parses to, has 2^64 elements and size 0. *)
Lemma size_sum_counterexample :
  ~ (forall rs : ranges,
       Forall (fun r => fst r <= snd r) rs -> size rs = range_sum rs).
Proof.
  intros H.
  specialize (H [(0, 18446744073709551615)]).
  assert (F : Forall (fun r : Z * Z => fst r <= snd r) [(0, 18446744073709551615)]).
  { repeat constructor. simpl. lia. }
  specialize (H F). vm_compute in H. discriminate H.
Qed.

(** C7, amended.  For every range-list whose pairs satisfy lo <= hi, [size]
    is the sum of hi - lo + 1 over all pairs reduced modulo 2^64, hence the
    sum itself whenever the sum is below 2^64; pairs are neither merged nor
    deduplicated, so a list taken twice counts twice and overlapping pairs
    count twice; the size of the ranges of [0-3,10-12] is 7. *)
Theorem size_is_wrapped_sum (rs : ranges) :
  Forall (fun r => fst r <= snd r) rs ->
  size rs = wrap64 (range_sum rs) /\
  (range_sum rs < 2 ^ 64 -> size rs = range_sum rs) /\
  size (rs ++ rs) = wrap64 (2 * range_sum rs) /\
  size [(0, 3); (2, 5)] = 8 /\
  parse "0-3,10-12" = ([(0, 3); (10, 12)], None) /\
  size (fst (parse "0-3,10-12")) = 7.
Proof.
  intros Hle. repeat split.
  - apply size_wrap.
  - intros Hlt. rewrite size_wrap. unfold wrap64.
    apply Z.mod_small. split; [now apply range_sum_nonneg | exact Hlt].
  - rewrite size_wrap, range_sum_app. f_equal. lia.
Qed.

(** An instance: a port pool of 1001 ports and one more port. *)
Lemma size_is_wrapped_sum_witness :
  Forall (fun r : Z * Z => fst r <= snd r) [(31000, 32000); (80, 80)] /\
  size [(31000, 32000); (80, 80)] = 1002.
Proof.
  assert (F : Forall (fun r : Z * Z => fst r <= snd r) [(31000, 32000); (80, 80)]).
  { repeat constructor; simpl; lia. }
  split; [exact F|].
  destruct (size_is_wrapped_sum [(31000, 32000); (80, 80)] F) as (_ & Hsum & _).
  rewrite Hsum; [reflexivity | vm_compute; reflexivity].
Defined.

(** C8.  Parsing the empty text gives the empty range-list and no error (the
    receiver is left as it is); whenever the text is not empty after the
    decoration is stripped, any token without a dash, or with a bound that
    is refused, makes the parse return an error; a bound that is empty or
    holds a byte that is no digit is refused; the texts [abc], [5] and [5-]
    all fail. *)
Theorem UnmarshalJSON_empty_ok_malformed_error :
  (forall rs, UnmarshalJSON [] rs = (rs, None)) /\
  parse "" = ([], None) /\
  (forall data rs r,
     Trim data decoration <> [] ->
     In r (Split (Trim data decoration) comma) ->
     malformed r ->
     exists err, snd (UnmarshalJSON data rs) = Some err) /\
  (forall p,
     TrimSpace p = [] \/ (exists c, In c (TrimSpace p) /\ is_digit c = false) ->
     bad_bound p) /\
  parse "abc" = ([], Some (BadRange (of_string "abc"))) /\
  parse "5" = ([], Some (BadRange (of_string "5"))) /\
  parse "5-" = ([], Some (ErrSyntax [])).
Proof.
  split; [reflexivity|]. split; [reflexivity|]. split; [|split].
  - intros data rs r Hne Hin Hbad. unfold UnmarshalJSON.
    destruct (Trim data decoration) as [|c t] eqn:Ht; [congruence|].
    eapply UnmarshalJSON_loop_malformed; eauto.
  - intros p Hp. apply ParseUint_not_number, Hp.
  - repeat split; vm_compute; reflexivity.
Qed.

(** An instance: the second token of a decorated text has a bound that is
    no number. *)
Lemma UnmarshalJSON_empty_ok_malformed_error_witness :
  Trim (of_string "[1-2, 3-x]") decoration <> [] /\
  In (of_string " 3-x") (Split (Trim (of_string "[1-2, 3-x]") decoration) comma) /\
  malformed (of_string " 3-x") /\
  exists err, snd (UnmarshalJSON (of_string "[1-2, 3-x]") []) = Some err.
Proof.
  assert (Hne : Trim (of_string "[1-2, 3-x]") decoration <> [])
    by (vm_compute; discriminate).
  assert (Hin : In (of_string " 3-x")
                  (Split (Trim (of_string "[1-2, 3-x]") decoration) comma))
    by (vm_compute; auto).
  assert (Hbad : malformed (of_string " 3-x")).
  { apply (malformed_bound _ (of_string " 3") (of_string "x")); [reflexivity|].
    right. exists (ErrSyntax (of_string "x")). vm_compute; reflexivity. }
  repeat split; auto.
  exact (proj1 (proj2 (proj2 UnmarshalJSON_empty_ok_malformed_error))
           (of_string "[1-2, 3-x]") [] (of_string " 3-x") Hne Hin Hbad).
Defined.

(** * Properties of the attribute normalizer *)

Lemma normaliseLabel_chars (x : string) :
  list_ascii_of_string (normaliseLabel x)
  = map (fun c => if validLabelChar c then c else underscore) (list_ascii_of_string x).
Proof. induction x as [|c x IH]; simpl; [reflexivity | now rewrite IH]. Qed.

Lemma normaliseLabel_idempotent (x : string) :
  normaliseLabel (normaliseLabel x) = normaliseLabel x.
Proof.
  induction x as [|c x IH]; simpl; [reflexivity|].
  rewrite IH. destruct (validLabelChar c) eqn:Hc; [now rewrite Hc | reflexivity].
Qed.

Lemma normaliseLabel_differ (x : string) :
  forall y, differ_only_in_invalid x y -> normaliseLabel x = normaliseLabel y.
Proof.
  unfold differ_only_in_invalid.
  induction x as [|a x IH]; intros [|b y] H; simpl in *; inversion H; subst.
  - reflexivity.
  - f_equal; [|now apply IH].
    match goal with Hab : _ \/ _ |- _ => destruct Hab as [->|[Ha Hb]] end;
      [reflexivity | now rewrite Ha, Hb].
Qed.

(** C10.  The normalizer is a function (the same name always gives the same
    canonical name); it is idempotent; it keeps every character of
    [A-Za-z0-9_] and replaces every other character by an underscore, so
    that the canonical name holds valid characters only and [rack-id]
    becomes [rack_id]; two names that differ only in disallowed characters
    at the same positions have the same canonical name. *)
Theorem normaliseLabel_canonical :
  (forall x, normaliseLabel (normaliseLabel x) = normaliseLabel x) /\
  (forall x,
     list_ascii_of_string (normaliseLabel x)
     = map (fun c => if validLabelChar c then c else underscore)
         (list_ascii_of_string x)) /\
  (forall x, Forall (fun c => validLabelChar c = true)
               (list_ascii_of_string (normaliseLabel x))) /\
  normaliseLabel "rack-id" = "rack_id"%string /\
  (forall x y, differ_only_in_invalid x y -> normaliseLabel x = normaliseLabel y).
Proof.
  split; [exact normaliseLabel_idempotent|].
  split; [exact normaliseLabel_chars|].
  split; [|split; [reflexivity | exact normaliseLabel_differ]].
  intros x. rewrite normaliseLabel_chars.
  induction (list_ascii_of_string x) as [|c l IH]; simpl; constructor; auto.
  destruct (validLabelChar c) eqn:Hc; [exact Hc | reflexivity].
Qed.

(** An instance: a dash and a dot at the same position. *)
Lemma normaliseLabel_canonical_witness :
  differ_only_in_invalid "rack-id" "rack.id" /\
  normaliseLabel "rack-id" = normaliseLabel "rack.id".
Proof.
  assert (H : differ_only_in_invalid "rack-id" "rack.id").
  { unfold differ_only_in_invalid. simpl.
    repeat (constructor; [first [left; reflexivity | right; split; reflexivity]|]).
    constructor. }
  split; [exact H|].
  exact (proj2 (proj2 (proj2 (proj2 normaliseLabel_canonical)))
           "rack-id"%string "rack.id"%string H).
Defined.

(** * Properties of the registry *)

Lemma fixed_metrics_length : length fixed_metrics = 19%nat.
Proof. reflexivity. Qed.

Lemma fixed_metrics_gauges :
  Forall (fun e => collector_kind (fst e) = GaugeVec) fixed_metrics.
Proof. repeat constructor. Qed.

(** C9.  The registry holds the nineteen fixed gauges, in full, whatever the
    allow-list is; with an empty allow-list it holds nothing else; with a
    non-empty one it holds exactly one more metric, the attribute counter,
    labelled by the node labels followed by the normalised allow-listed
    names; so the attribute counter is registered if and only if the
    allow-list is not empty. *)
Theorem newMasterStateCollector_registry (slaveAttributeLabels : list string) :
  length fixed_metrics = 19%nat /\
  Forall (fun e => collector_kind (fst e) = GaugeVec) fixed_metrics /\
  (slaveAttributeLabels = [] ->
     metrics (newMasterStateCollector slaveAttributeLabels) = fixed_metrics) /\
  (slaveAttributeLabels <> [] ->
     exists c set,
       metrics (newMasterStateCollector slaveAttributeLabels)
         = fixed_metrics ++ [(c, set)] /\
       collector_kind c = settableCounterVec /\
       fqName (collector_desc c) = attributes_name /\
       variableLabels (collector_desc c)
         = labels ++ (normaliseLabel <$> slaveAttributeLabels) /\
       collector_values c = ∅) /\
  ((exists e, e ∈ metrics (newMasterStateCollector slaveAttributeLabels) /\
              collector_kind (fst e) = settableCounterVec)
   <-> slaveAttributeLabels <> []) /\
  length (metrics (newMasterStateCollector slaveAttributeLabels))
    = (if decide (slaveAttributeLabels = []) then 19 else 20)%nat.
Proof.
  split; [reflexivity|]. split; [exact fixed_metrics_gauges|].
  destruct slaveAttributeLabels as [|a l].
  - repeat split; try congruence; try reflexivity.
    intros (e & Hin & Hk). exfalso.
    pose proof (proj1 (Forall_forall _ _) fixed_metrics_gauges e Hin) as HF.
    congruence.
  - repeat split; try congruence.
    + intros _. eexists _, _. split; [reflexivity|]. repeat split; reflexivity.
    + intros _. eexists. split; [apply elem_of_app; right; left|].
      reflexivity.
Qed.

(** An instance: the allow-list of rack alone gives twenty metrics. *)
Lemma newMasterStateCollector_registry_witness :
  ["rack"%string] <> [] /\
  length (metrics (newMasterStateCollector ["rack"%string])) = 20%nat.
Proof.
  split; [discriminate|].
  exact (proj2 (proj2 (proj2 (proj2 (proj2
           (newMasterStateCollector_registry ["rack"%string])))))).
Defined.

(** * Properties of the metric vectors *)

Section Vectors.

Context {A : Type} (key : A -> list string) (value : A -> float64).

Lemma set_all_snoc (xs : list A) (a : A) (m : gmap (list string) float64) :
  set_all key value (xs ++ [a]) m = <[key a := value a]> (set_all key value xs m).
Proof. unfold set_all. now rewrite fold_left_app. Qed.

(** A key is either set by some element, whose value it then holds, or by
    none, and then keeps what it held. *)
Lemma set_all_lookup (xs : list A) (m : gmap (list string) float64) (k : list string) :
  (exists x, x ∈ xs /\ key x = k /\ set_all key value xs m !! k = Some (value x))
  \/ ((forall x, x ∈ xs -> key x <> k) /\ set_all key value xs m !! k = m !! k).
Proof.
  induction xs as [|a xs IH] using rev_ind.
  - right. split; [|reflexivity]. intros x Hx. inversion Hx.
  - rewrite set_all_snoc.
    destruct (decide (key a = k)) as [<-|Hne].
    + left. exists a. rewrite lookup_insert_eq.
      repeat split. apply elem_of_app. right. now apply list_elem_of_singleton.
    + rewrite lookup_insert_ne by exact Hne.
      destruct IH as [(x & Hx & Hk & Hl)|[Hnone Hl]].
      * left. exists x. repeat split; auto. apply elem_of_app. now left.
      * right. split; [|exact Hl].
        intros x Hx. apply elem_of_app in Hx as [Hx|Hx]; [auto|].
        apply list_elem_of_singleton in Hx. now subst.
Qed.

Lemma set_all_lookup_Some (xs : list A) (m : gmap (list string) float64) k v :
  set_all key value xs m !! k = Some v ->
  (exists x, x ∈ xs /\ key x = k /\ v = value x) \/ m !! k = Some v.
Proof.
  intros H. destruct (set_all_lookup xs m k) as [(x & Hx & Hk & Hl)|[_ Hl]].
  - left. exists x. repeat split; auto. congruence.
  - right. congruence.
Qed.

Lemma set_all_lookup_elem (xs : list A) (m : gmap (list string) float64) x :
  x ∈ xs ->
  exists x', x' ∈ xs /\ key x' = key x /\ set_all key value xs m !! key x = Some (value x').
Proof.
  intros Hx. destruct (set_all_lookup xs m (key x)) as [H|[Hnone _]]; [exact H|].
  now destruct (Hnone x Hx).
Qed.

Lemma set_all_lookup_kept (xs : list A) (m : gmap (list string) float64) k :
  is_Some (m !! k) -> is_Some (set_all key value xs m !! k).
Proof.
  intros Hm. destruct (set_all_lookup xs m k) as [(x & _ & _ & Hl)|[_ Hl]];
    rewrite Hl; eauto.
Qed.

(** The loop of a gauge closure leaves the descriptor and the kind alone and
    sets the values one by one. *)
Lemma fold_WithLabelValues_Set (xs : list A) :
  forall c,
    fold_left (fun c x => WithLabelValues_Set (key x) (value x) c) xs c
    = {| collector_desc := collector_desc c;
         collector_kind := collector_kind c;
         collector_values := set_all key value xs (collector_values c) |}.
Proof.
  induction xs as [|a xs IH]; intros c; simpl.
  - now destruct c.
  - now rewrite IH.
Qed.

Lemma fold_settableCounterVec_Set (xs : list A) :
  forall c,
    fold_left (fun c x => settableCounterVec_Set (value x) (key x) c) xs c
    = {| collector_desc := collector_desc c;
         collector_kind := collector_kind c;
         collector_values := set_all key value xs (collector_values c) |}.
Proof.
  induction xs as [|a xs IH]; intros c; simpl.
  - now destruct c.
  - now rewrite IH.
Qed.

End Vectors.

Lemma slave_gauge_eq (value : slave -> float64) (st : state) (c : Collector) :
  slave_gauge value st c
  = {| collector_desc := collector_desc c;
       collector_kind := collector_kind c;
       collector_values := set_all slave_key value (state_Slaves st) ∅ |}.
Proof. unfold slave_gauge. now rewrite (fold_WithLabelValues_Set slave_key value). Qed.

Lemma framework_gauge_eq (value : framework -> float64) (st : state) (c : Collector) :
  framework_gauge value st c
  = {| collector_desc := collector_desc c;
       collector_kind := collector_kind c;
       collector_values := set_all framework_key value (state_Frameworks st) ∅ |}.
Proof.
  unfold framework_gauge. now rewrite (fold_WithLabelValues_Set framework_key value).
Qed.

Lemma slave_attributes_eq (normalised : list string) (st : state) (c : Collector) :
  slave_attributes normalised (labels ++ normalised) st c
  = {| collector_desc := collector_desc c;
       collector_kind := collector_kind c;
       collector_values :=
         set_all (attribute_row normalised) (fun _ => 1%float) (state_Slaves st)
           (collector_values c) |}.
Proof.
  unfold slave_attributes.
  now rewrite (fold_settableCounterVec_Set (attribute_row normalised) (fun _ => 1%float)).
Qed.

Lemma elem_of_Collector_Collect (c : Collector) (m : Metric) :
  m ∈ Collector_Collect c <->
  metric_desc m = collector_desc c /\
  collector_values c !! metric_labelValues m = Some (metric_value m).
Proof.
  unfold Collector_Collect. rewrite list_elem_of_fmap. split.
  - intros ([k v] & -> & Hkv). apply elem_of_map_to_list in Hkv. auto.
  - intros [Hd Hl]. exists (metric_labelValues m, metric_value m). split.
    + destruct m; simpl in *. now subst.
    + now apply elem_of_map_to_list.
Qed.

Lemma Collector_Collect_labelValues (c : Collector) :
  metric_labelValues <$> Collector_Collect c = (map_to_list (collector_values c)).*1.
Proof.
  unfold Collector_Collect. rewrite <- list_fmap_compose. reflexivity.
Qed.

Lemma Collector_Collect_NoDup (c : Collector) :
  NoDup (metric_labelValues <$> Collector_Collect c).
Proof. rewrite Collector_Collect_labelValues. apply NoDup_fst_map_to_list. Qed.

(** * Properties of the collection cycle *)

Lemma Collect_loop_eq (s : state) (ms : list (Collector * extraction)) :
  Collect_loop s ms
  = (step s <$> ms, ms ≫= (fun e => Collector_Collect (fst (step s e)))).
Proof.
  induction ms as [|[c set] ms IH]; [reflexivity|].
  cbn [Collect_loop]. rewrite IH. reflexivity.
Qed.

Lemma Collect_eq (outcome : fetched) (c : masterCollector) :
  Collect outcome c
  = ({| metrics := step (fetchAndDecode outcome zero_state) <$> metrics c |},
     metrics c ≫= (fun e =>
       Collector_Collect (fst (step (fetchAndDecode outcome zero_state) e)))).
Proof. unfold Collect. now rewrite Collect_loop_eq. Qed.

(** The order in which the loop of [Collect] visits the metrics, which Go
    leaves to the runtime, only permutes the registry and the samples sent:
    an extraction function touches its own vector alone. *)
Lemma Collect_loop_order (s : state) (ms ms' : list (Collector * extraction)) :
  ms ≡ₚ ms' ->
  fst (Collect_loop s ms) ≡ₚ fst (Collect_loop s ms') /\
  snd (Collect_loop s ms) ≡ₚ snd (Collect_loop s ms').
Proof.
  intros Hp. rewrite !Collect_loop_eq. cbn [fst snd]. now rewrite Hp.
Qed.

Lemma entry_shape_keeps_desc attrs d k set :
  entry_shape attrs d k set -> keeps_desc set.
Proof.
  intros [d' v _ _|d' v _ _|d' _ _ _] s c.
  - rewrite slave_gauge_eq. auto.
  - rewrite framework_gauge_eq. auto.
  - rewrite slave_attributes_eq. auto.
Qed.

Lemma fixed_metrics_ok (attrs : list string) : Forall (entry_ok attrs) fixed_metrics.
Proof.
  unfold fixed_metrics, entry_ok.
  repeat (apply Forall_cons; split;
          [first [apply slave_entry; [reflexivity | discriminate]
                 |apply framework_entry; [reflexivity | discriminate]] |]).
  apply Forall_nil_2.
Qed.

Lemma registry_ok (attrs : list string) :
  Forall (entry_ok attrs) (metrics (newMasterStateCollector attrs)).
Proof.
  unfold newMasterStateCollector.
  destruct attrs as [|a l]; cbn [length Nat.ltb Nat.leb metrics].
  - apply fixed_metrics_ok.
  - apply Forall_app. split; [apply fixed_metrics_ok|].
    apply Forall_cons. split; [|apply Forall_nil_2].
    apply attributes_entry; [discriminate | reflexivity | reflexivity].
Qed.

Lemma registry_names_NoDup (attrs : list string) :
  NoDup (entry_name <$> metrics (newMasterStateCollector attrs)).
Proof.
  destruct attrs as [|a l];
    apply (bool_decide_unpack _); vm_compute; reflexivity.
Qed.

Lemma same_shape_refl (ms : list (Collector * extraction)) : same_shape ms ms.
Proof. induction ms; constructor; auto. Qed.

Lemma same_shape_step attrs s ms ms0 :
  Forall (entry_ok attrs) ms0 -> same_shape ms ms0 -> same_shape (step s <$> ms) ms0.
Proof.
  intros Hok H. induction H as [|e e0 ms ms0 (Hd & Hk & Hs) _ IH]; [constructor|].
  apply Forall_cons in Hok as [He0 Hok].
  constructor; [|now apply IH].
  destruct (entry_shape_keeps_desc _ _ _ _ He0 s (fst e)) as [Hd' Hk'].
  unfold step; simpl. rewrite Hs. repeat split; congruence.
Qed.

Lemma after_same_shape attrs (history : list fetched) :
  forall c,
    same_shape (metrics c) (metrics (newMasterStateCollector attrs)) ->
    same_shape (metrics (after history c)) (metrics (newMasterStateCollector attrs)).
Proof.
  induction history as [|o history IH]; intros c Hc; [exact Hc|].
  cbn [after fold_left]. apply IH. rewrite Collect_eq. cbn [fst metrics].
  apply (same_shape_step attrs); [apply registry_ok | exact Hc].
Qed.

Lemma same_shape_ok attrs ms ms0 :
  Forall (entry_ok attrs) ms0 -> same_shape ms ms0 -> Forall (entry_ok attrs) ms.
Proof.
  intros Hok H. induction H as [|e e0 ms ms0 (Hd & Hk & Hs) _ IH]; [constructor|].
  apply Forall_cons in Hok as [He0 Hok].
  constructor; [|now apply IH].
  unfold entry_ok in *. now rewrite Hd, Hk, Hs.
Qed.

Lemma same_shape_names ms ms0 :
  same_shape ms ms0 -> entry_name <$> ms = entry_name <$> ms0.
Proof.
  induction 1 as [|e e0 ms ms0 (Hd & _ & _) _ IH]; [reflexivity|].
  cbn. unfold entry_name at 1 3. now rewrite Hd, IH.
Qed.

Lemma same_shape_elem_of ms ms0 e0 :
  same_shape ms ms0 -> e0 ∈ ms0 ->
  exists e, e ∈ ms /\
            collector_desc (fst e) = collector_desc (fst e0) /\
            collector_kind (fst e) = collector_kind (fst e0) /\
            snd e = snd e0.
Proof.
  induction 1 as [|e e1 ms ms0 He _ IH]; intros Hin; [inversion Hin|].
  apply elem_of_cons in Hin as [->|Hin].
  - exists e. split; [left | exact He].
  - destruct (IH Hin) as (e' & He' & H'). exists e'. split; [now right | exact H'].
Qed.

(** The registry after any history of cycles. *)
Lemma reachable_ok attrs history :
  let ms := metrics (after history (newMasterStateCollector attrs)) in
  same_shape ms (metrics (newMasterStateCollector attrs)) /\
  Forall (entry_ok attrs) ms /\
  NoDup (entry_name <$> ms).
Proof.
  intros ms.
  assert (Hs : same_shape ms (metrics (newMasterStateCollector attrs))).
  { apply after_same_shape, same_shape_refl. }
  repeat split; [exact Hs | |].
  - eapply same_shape_ok; [apply registry_ok | exact Hs].
  - rewrite (same_shape_names _ _ Hs). apply registry_names_NoDup.
Qed.

Lemma filter_all {X} (P : X -> Prop) `{forall x, Decision (P x)} (l : list X) :
  (forall x, x ∈ l -> P x) -> filter P l = l.
Proof.
  induction l as [|x l IH]; intros Hl; [reflexivity|].
  rewrite filter_cons_True by (apply Hl; left).
  f_equal. apply IH. intros y Hy. apply Hl. now right.
Qed.

Lemma filter_none {X} (P : X -> Prop) `{forall x, Decision (P x)} (l : list X) :
  (forall x, x ∈ l -> ~ P x) -> filter P l = [].
Proof.
  induction l as [|x l IH]; intros Hl; [reflexivity|].
  rewrite filter_cons_False by (apply Hl; left).
  apply IH. intros y Hy. apply Hl. now right.
Qed.

(** The samples of one name are the samples of the one entry of that name. *)
Lemma samples_of_bind (name : string) (f : Collector * extraction -> list Metric)
    (ms : list (Collector * extraction)) :
  (forall e m, e ∈ ms -> m ∈ f e -> fqName (metric_desc m) = entry_name e) ->
  NoDup (entry_name <$> ms) ->
  forall e, e ∈ ms -> entry_name e = name -> samples_of name (ms ≫= f) = f e.
Proof.
  induction ms as [|a ms IH]; intros Hf Hnd e Hin Hname; [inversion Hin|].
  rewrite fmap_cons in Hnd. apply NoDup_cons in Hnd as [Hna Hnd].
  rewrite bind_cons. unfold samples_of. rewrite filter_app.
  apply elem_of_cons in Hin as [->|Hin].
  - rewrite filter_all.
    2:{ intros m Hm. rewrite (Hf a m); [exact Hname | left | exact Hm]. }
    rewrite filter_none; [apply app_nil_r|].
    intros m Hm Hn. apply list_elem_of_bind in Hm as (e' & Hm & He').
    apply Hna. apply list_elem_of_fmap. exists e'. split; [|exact He'].
    rewrite <- (Hf e' m); [congruence | now right | exact Hm].
  - rewrite filter_none.
    2:{ intros m Hm Hn. apply Hna. apply list_elem_of_fmap. exists e.
        split; [|exact Hin]. rewrite <- (Hf a m); [congruence | left | exact Hm]. }
    cbn [app]. apply IH; auto.
    intros e' m He' Hm. apply Hf; [now right | exact Hm].
Qed.

(** The channel of a cycle over a registry reached from startup: the samples
    of an entry's name are the samples of that entry after its extraction. *)
Lemma samples_of_Collect attrs history outcome e :
  let c := after history (newMasterStateCollector attrs) in
  e ∈ metrics c ->
  samples_of (entry_name e) (snd (Collect outcome c))
  = Collector_Collect (fst (step (fetchAndDecode outcome zero_state) e)).
Proof.
  intros c Hin. rewrite Collect_eq. cbn [snd].
  destruct (reachable_ok attrs history) as (_ & Hok & Hnd).
  apply (samples_of_bind (entry_name e)
           (fun e => Collector_Collect (fst (step (fetchAndDecode outcome zero_state) e))));
    auto.
  intros e' m He' Hm. apply elem_of_Collector_Collect in Hm as [Hd _].
  rewrite Hd. unfold entry_name, step. cbn [fst snd].
  pose proof (proj1 (Forall_forall _ _) Hok e' He') as Hshape.
  now destruct (entry_shape_keeps_desc _ _ _ _ Hshape
                  (fetchAndDecode outcome zero_state) (fst e')) as [-> _].
Qed.

Lemma fixed_metrics_registered attrs e0 :
  e0 ∈ fixed_metrics -> e0 ∈ metrics (newMasterStateCollector attrs).
Proof.
  intros H. unfold newMasterStateCollector.
  destruct (0 <? length attrs)%nat; cbn [metrics]; [|exact H].
  apply elem_of_app. now left.
Qed.

Lemma slave_gauge_output attrs history S e0 value :
  e0 ∈ fixed_metrics -> snd e0 = slave_gauge value ->
  samples_of (entry_name e0) (cycle_output attrs history (FetchOk S))
  = Collector_Collect
      {| collector_desc := collector_desc (fst e0);
         collector_kind := collector_kind (fst e0);
         collector_values := set_all slave_key value (state_Slaves S) ∅ |}.
Proof.
  intros Hin Hset.
  destruct (reachable_ok attrs history) as (Hs & _ & _).
  destruct (same_shape_elem_of _ _ e0 Hs (fixed_metrics_registered attrs e0 Hin))
    as (e & He & Hd & Hk & Hse).
  unfold cycle_output.
  replace (entry_name e0) with (entry_name e) by (unfold entry_name; now rewrite Hd).
  rewrite (samples_of_Collect attrs history (FetchOk S) e He).
  unfold step. cbn [fst snd fetchAndDecode].
  now rewrite Hse, Hset, slave_gauge_eq, Hd, Hk.
Qed.

Lemma framework_gauge_output attrs history S e0 value :
  e0 ∈ fixed_metrics -> snd e0 = framework_gauge value ->
  samples_of (entry_name e0) (cycle_output attrs history (FetchOk S))
  = Collector_Collect
      {| collector_desc := collector_desc (fst e0);
         collector_kind := collector_kind (fst e0);
         collector_values := set_all framework_key value (state_Frameworks S) ∅ |}.
Proof.
  intros Hin Hset.
  destruct (reachable_ok attrs history) as (Hs & _ & _).
  destruct (same_shape_elem_of _ _ e0 Hs (fixed_metrics_registered attrs e0 Hin))
    as (e & He & Hd & Hk & Hse).
  unfold cycle_output.
  replace (entry_name e0) with (entry_name e) by (unfold entry_name; now rewrite Hd).
  rewrite (samples_of_Collect attrs history (FetchOk S) e He).
  unfold step. cbn [fst snd fetchAndDecode].
  now rewrite Hse, Hset, framework_gauge_eq, Hd, Hk.
Qed.

Section GaugeOutput.

Context {A : Type} (key : A -> list string) (value : A -> float64).
Context (d : Desc) (k : vecKind) (xs : list A).

Local Abbreviation out :=
  (Collector_Collect
     {| collector_desc := d; collector_kind := k;
        collector_values := set_all key value xs ∅ |}).

Lemma gauge_out_elem_of (m : Metric) :
  m ∈ out ->
  metric_desc m = d /\
  exists x, x ∈ xs /\ metric_labelValues m = key x /\ metric_value m = value x.
Proof.
  intros Hm. apply elem_of_Collector_Collect in Hm as [Hd Hl]. cbn in Hd, Hl.
  split; [exact Hd|].
  apply set_all_lookup_Some in Hl as [(x & Hx & Hk & Hv)|Hl].
  - exists x. auto.
  - rewrite lookup_empty in Hl. discriminate.
Qed.

Lemma gauge_out_of_elem (x : A) :
  x ∈ xs ->
  exists m x', m ∈ out /\ metric_labelValues m = key x /\
               x' ∈ xs /\ key x' = key x /\ metric_value m = value x'.
Proof.
  intros Hx.
  destruct (set_all_lookup_elem key value xs ∅ x Hx) as (x' & Hx' & Hk & Hl).
  exists {| metric_desc := d; metric_labelValues := key x; metric_value := value x' |}, x'.
  repeat split; auto. apply elem_of_Collector_Collect. cbn. auto.
Qed.

Lemma gauge_out_unique (m m' : Metric) :
  m ∈ out -> m' ∈ out -> metric_labelValues m = metric_labelValues m' -> m = m'.
Proof.
  intros Hm Hm' Hlv.
  apply elem_of_Collector_Collect in Hm as [Hd Hl].
  apply elem_of_Collector_Collect in Hm' as [Hd' Hl']. cbn in *.
  destruct m, m'; cbn in *. subst. rewrite Hl in Hl'. now inversion Hl'.
Qed.

Lemma gauge_out_labelValues (lv : list string) :
  lv ∈ metric_labelValues <$> out <-> lv ∈ key <$> xs.
Proof.
  rewrite !list_elem_of_fmap. split.
  - intros (m & -> & Hm). apply gauge_out_elem_of in Hm as (_ & x & Hx & Hk & _).
    eauto.
  - intros (x & -> & Hx).
    destruct (gauge_out_of_elem x Hx) as (m & _ & Hm & Hk & _). eauto.
Qed.

Lemma gauge_out_NoDup : NoDup (metric_labelValues <$> out).
Proof. apply Collector_Collect_NoDup. Qed.

Lemma gauge_out_length : NoDup (key <$> xs) -> length out = length xs.
Proof.
  intros Hnd.
  rewrite <- (length_fmap metric_labelValues out), <- (length_fmap key xs).
  apply Permutation_length, NoDup_Permutation;
    [apply gauge_out_NoDup | exact Hnd | apply gauge_out_labelValues].
Qed.

Lemma gauge_out_nil : xs = [] -> out = [].
Proof.
  intros Hxs. destruct out as [|m l] eqn:E; [reflexivity|].
  assert (Hm : m ∈ out) by (rewrite E; left).
  apply gauge_out_elem_of in Hm as (_ & x & Hx & _). subst xs. inversion Hx.
Qed.

End GaugeOutput.

(** C3, as stated, does not hold: samples are keyed by label tuple, so two
    frameworks of the same name give one sample, not two.  On the snapshot
    [twin_frameworks] the descriptor mesos_framework_active reports one
    sample for two frameworks. *)
Lemma one_sample_per_entity_counterexample :
  ~ (forall (S : state) (e0 : Collector * extraction),
       e0 ∈ fixed_metrics ->
       length (samples_of (entry_name e0) (cycle_output [] [] (FetchOk S)))
       = length (entity_label_tuples (collector_desc (fst e0)) S)).
Proof.
  intros H.
  specialize (H twin_frameworks
                (NewGaugeVec (framework_opts "Active framework" "active") framework_labels,
                 framework_gauge (fun f => if framework_Active f then 1%float else 0%float))).
  assert (Hin : (NewGaugeVec (framework_opts "Active framework" "active") framework_labels,
                 framework_gauge (fun f => if framework_Active f then 1%float else 0%float))
                ∈ fixed_metrics).
  { apply (list_elem_of_lookup_2 _ 12%nat). reflexivity. }
  specialize (H Hin). vm_compute in H. discriminate H.
Qed.

Lemma gauge_out_summary {A : Type} (key : A -> list string) (value : A -> float64)
    (d : Desc) (k : vecKind) (xs : list A) :
  let out :=
    Collector_Collect
      {| collector_desc := d; collector_kind := k;
         collector_values := set_all key value xs ∅ |} in
  (forall m, m ∈ out -> metric_desc m = d) /\
  NoDup (metric_labelValues <$> out) /\
  (forall lv, lv ∈ metric_labelValues <$> out <-> lv ∈ key <$> xs) /\
  (forall lv, lv ∈ key <$> xs ->
     exists m, m ∈ out /\ metric_labelValues m = lv /\
               forall m', m' ∈ out -> metric_labelValues m' = lv -> m' = m) /\
  (NoDup (key <$> xs) -> length out = length (key <$> xs)) /\
  (key <$> xs = [] -> out = []).
Proof.
  intros out. subst out.
  split; [|split; [|split; [|split; [|split]]]].
  - intros m Hm. now apply gauge_out_elem_of in Hm as [Hd _].
  - apply gauge_out_NoDup.
  - apply gauge_out_labelValues.
  - intros lv Hlv. apply (gauge_out_labelValues key value d k xs) in Hlv.
    apply list_elem_of_fmap in Hlv as (m & -> & Hm).
    exists m. repeat split; auto.
    intros m' Hm' Heq. now apply (gauge_out_unique key value d k xs m' m).
  - intros Hnd. rewrite length_fmap. now apply gauge_out_length.
  - intros Hnil. apply fmap_nil_inv in Hnil. now apply gauge_out_nil.
Qed.

Lemma fixed_entry_cases (e0 : Collector * extraction) :
  e0 ∈ fixed_metrics ->
  (variableLabels (collector_desc (fst e0)) = labels /\
   exists value, snd e0 = slave_gauge value) \/
  (variableLabels (collector_desc (fst e0)) = framework_labels /\
   exists value, snd e0 = framework_gauge value).
Proof.
  intros Hin.
  pose proof (proj1 (Forall_forall _ _) (fixed_metrics_ok []) e0 Hin) as Hok.
  pose proof (proj1 (Forall_forall _ _) fixed_metrics_gauges e0 Hin) as Hk.
  unfold entry_ok in Hok. destruct e0 as [c set]. cbn [fst snd] in *.
  inversion Hok; subst; eauto. congruence.
Qed.

(** Every gauge is set with as many label values as its vector has label
    names, as [WithLabelValues] demands. *)
Lemma gauge_label_cardinality (e0 : Collector * extraction) (S : state)
    (lv : list string) :
  e0 ∈ fixed_metrics ->
  lv ∈ entity_label_tuples (collector_desc (fst e0)) S ->
  length lv = length (variableLabels (collector_desc (fst e0))).
Proof.
  intros Hin Hlv. unfold entity_label_tuples in Hlv.
  destruct (fixed_entry_cases e0 Hin) as [[Hl _]|[Hl _]].
  - rewrite decide_True in Hlv by exact Hl.
    apply list_elem_of_fmap in Hlv as (s & -> & _). now rewrite Hl.
  - rewrite decide_False in Hlv by (rewrite Hl; discriminate).
    apply list_elem_of_fmap in Hlv as (f & -> & _). now rewrite Hl.
Qed.

(** C3, amended.  For every snapshot a cycle produces, for each fixed-shape
    descriptor, exactly one sample per distinct label tuple of the
    corresponding entity list: every sample carries the label tuple of an
    entity, every entity has exactly one sample carrying its label tuple
    (entities with the same label tuple share it), so that there are as
    many samples as entities whenever the label tuples of the entities are
    pairwise distinct, and no sample when the entity list is empty. *)
Theorem one_sample_per_label_tuple (attrs : list string) (history : list fetched)
    (S : state) (e0 : Collector * extraction) :
  e0 ∈ fixed_metrics ->
  let d := collector_desc (fst e0) in
  let out := samples_of (fqName d) (cycle_output attrs history (FetchOk S)) in
  let tuples := entity_label_tuples d S in
  (forall m, m ∈ out -> metric_desc m = d) /\
  NoDup (metric_labelValues <$> out) /\
  (forall lv, lv ∈ metric_labelValues <$> out <-> lv ∈ tuples) /\
  (forall lv, lv ∈ tuples ->
     exists m, m ∈ out /\ metric_labelValues m = lv /\
               forall m', m' ∈ out -> metric_labelValues m' = lv -> m' = m) /\
  (NoDup tuples -> length out = length tuples) /\
  (tuples = [] -> out = []).
Proof.
  intros Hin d out tuples. subst d out tuples. unfold entity_label_tuples.
  change (fqName (collector_desc (fst e0))) with (entry_name e0).
  destruct (fixed_entry_cases e0 Hin) as [[Hl [value Hset]]|[Hl [value Hset]]].
  - rewrite (slave_gauge_output attrs history S e0 value Hin Hset).
    rewrite decide_True by exact Hl. apply gauge_out_summary.
  - rewrite (framework_gauge_output attrs history S e0 value Hin Hset).
    rewrite decide_False by (rewrite Hl; discriminate). apply gauge_out_summary.
Qed.

Lemma framework_active_entry_fixed : framework_active_entry ∈ fixed_metrics.
Proof. apply (list_elem_of_lookup_2 _ 12%nat). reflexivity. Defined.

(** An instance: the samples of mesos_framework_active on [twin_frameworks]
    carry pairwise distinct labels. *)
Lemma one_sample_per_label_tuple_witness :
  framework_active_entry ∈ fixed_metrics /\
  NoDup (metric_labelValues <$>
           samples_of (fqName (collector_desc (fst framework_active_entry)))
             (cycle_output [] [] (FetchOk twin_frameworks))).
Proof.
  split; [exact framework_active_entry_fixed|].
  exact (proj1 (proj2 (one_sample_per_label_tuple [] [] twin_frameworks
                         framework_active_entry framework_active_entry_fixed))).
Defined.

(** ** Unit conversion *)

Lemma node_quantities_registered name q :
  (name, q) ∈ node_quantities ->
  exists e0, e0 ∈ fixed_metrics /\ entry_name e0 = name /\ snd e0 = slave_gauge q.
Proof.
  intros Hin. unfold node_quantities in Hin.
  repeat (apply elem_of_cons in Hin as [Heq|Hin];
          [inversion Heq; subst; clear Heq|]);
    [..|inversion Hin].
  - registered_at 0%nat.
  - registered_at 1%nat.
  - registered_at 2%nat.
  - registered_at 3%nat.
  - registered_at 4%nat.
  - registered_at 5%nat.
  - registered_at 6%nat.
  - registered_at 7%nat.
  - registered_at 8%nat.
Qed.

Lemma framework_quantities_registered name q :
  (name, q) ∈ framework_quantities ->
  exists e0, e0 ∈ fixed_metrics /\ entry_name e0 = name /\ snd e0 = framework_gauge q.
Proof.
  intros Hin. unfold framework_quantities in Hin.
  repeat (apply elem_of_cons in Hin as [Heq|Hin];
          [inversion Heq; subst; clear Heq|]);
    [..|inversion Hin].
  - registered_at 13%nat.
  - registered_at 14%nat.
  - registered_at 15%nat.
  - registered_at 16%nat.
  - registered_at 17%nat.
  - registered_at 18%nat.
Qed.

(** C4.  For every snapshot, every sample of a node metric of cpu, memory or
    disk carries the labels of a node of the snapshot and the value listed
    in [node_quantities] for that node (cpu as it is, memory and disk
    times 1024), and every node has such a sample under its labels; the
    same holds of the framework metrics of used and offered cpu, memory and
    disk with the values as they are; a node whose total memory is 2 reports
    2048 on mesos_slave_mem_bytes. *)
Theorem quantities_reported (attrs : list string) (history : list fetched) (S : state) :
  (forall name q, (name, q) ∈ node_quantities ->
     let out := samples_of name (cycle_output attrs history (FetchOk S)) in
     (forall m, m ∈ out ->
        exists s, s ∈ state_Slaves S /\
                  metric_labelValues m = slave_key s /\ metric_value m = q s) /\
     (forall s, s ∈ state_Slaves S ->
        exists m s', m ∈ out /\ metric_labelValues m = slave_key s /\
                     s' ∈ state_Slaves S /\ slave_key s' = slave_key s /\
                     metric_value m = q s')) /\
  (forall name q, (name, q) ∈ framework_quantities ->
     let out := samples_of name (cycle_output attrs history (FetchOk S)) in
     (forall m, m ∈ out ->
        exists f, f ∈ state_Frameworks S /\
                  metric_labelValues m = framework_key f /\ metric_value m = q f) /\
     (forall f, f ∈ state_Frameworks S ->
        exists m f', m ∈ out /\ metric_labelValues m = framework_key f /\
                     f' ∈ state_Frameworks S /\ framework_key f' = framework_key f /\
                     metric_value m = q f')) /\
  resources_Mem (slave_Total small_node) = 2%float /\
  metric_value <$>
    samples_of "mesos_slave_mem_bytes" (cycle_output attrs [] (FetchOk small_snapshot))
  = [2048%float].
Proof.
  split; [|split; [|split; [reflexivity|]]].
  - intros name q Hin out. subst out.
    destruct (node_quantities_registered name q Hin) as (e0 & He0 & <- & Hset).
    rewrite (slave_gauge_output attrs history S e0 q He0 Hset). split.
    + intros m Hm. now apply gauge_out_elem_of in Hm as [_ H].
    + intros s Hs. now apply gauge_out_of_elem.
  - intros name q Hin out. subst out.
    destruct (framework_quantities_registered name q Hin) as (e0 & He0 & <- & Hset).
    rewrite (framework_gauge_output attrs history S e0 q He0 Hset). split.
    + intros m Hm. now apply gauge_out_elem_of in Hm as [_ H].
    + intros f Hf. now apply gauge_out_of_elem.
  - assert (Hin : ("mesos_slave_mem_bytes"%string,
                   fun s => (resources_Mem (slave_Total s) * 1024)%float)
                  ∈ node_quantities).
    { apply (list_elem_of_lookup_2 _ 3%nat). reflexivity. }
    destruct (node_quantities_registered _ _ Hin) as (e0 & He0 & <- & Hset).
    rewrite (slave_gauge_output attrs [] small_snapshot e0 _ He0 Hset).
    vm_compute. reflexivity.
Qed.

(** An instance: the disk of the node of [small_snapshot]. *)
Lemma quantities_reported_witness :
  ("mesos_slave_disk_bytes"%string,
   fun s => (resources_Disk (slave_Total s) * 1024)%float) ∈ node_quantities /\
  small_node ∈ state_Slaves small_snapshot /\
  exists m s', m ∈ samples_of "mesos_slave_disk_bytes"
                     (cycle_output [] [] (FetchOk small_snapshot)) /\
               metric_labelValues m = slave_key small_node /\
               s' ∈ state_Slaves small_snapshot /\
               slave_key s' = slave_key small_node /\
               metric_value m = (resources_Disk (slave_Total s') * 1024)%float.
Proof.
  assert (Hin : ("mesos_slave_disk_bytes"%string,
                 fun s => (resources_Disk (slave_Total s) * 1024)%float)
                ∈ node_quantities).
  { apply (list_elem_of_lookup_2 _ 6%nat). reflexivity. }
  assert (Hs : small_node ∈ state_Slaves small_snapshot) by left.
  split; [exact Hin|]. split; [exact Hs|].
  exact (proj2 (proj1 (quantities_reported [] [] small_snapshot) _ _ Hin) small_node Hs).
Defined.

(** ** Stale entities *)

Lemma gauge_descs_names (d : Desc) : d ∈ gauge_descs -> fqName d <> attributes_name.
Proof.
  intros Hd. apply list_elem_of_fmap in Hd as (e & -> & He).
  pose proof (proj1 (Forall_forall _ _) (fixed_metrics_ok []) e He) as Hok.
  pose proof (proj1 (Forall_forall _ _) fixed_metrics_gauges e He) as Hk.
  unfold entry_ok in Hok. inversion Hok; auto; congruence.
Qed.

Lemma after_snoc (history : list fetched) (o : fetched) (c : masterCollector) :
  after (history ++ [o]) c = fst (Collect o (after history c)).
Proof. unfold after. now rewrite fold_left_app. Qed.

Lemma metrics_after_snoc (history : list fetched) (o : fetched) (c : masterCollector) :
  metrics (after (history ++ [o]) c)
  = step (fetchAndDecode o zero_state) <$> metrics (after history c).
Proof. now rewrite after_snoc, Collect_eq. Qed.

Lemma elem_of_cycle_output attrs history outcome (m : Metric) :
  m ∈ cycle_output attrs history outcome <->
  exists e, e ∈ metrics (after history (newMasterStateCollector attrs)) /\
            m ∈ Collector_Collect (fst (step (fetchAndDecode outcome zero_state) e)).
Proof.
  unfold cycle_output. rewrite Collect_eq. cbn [snd].
  rewrite list_elem_of_bind. split; intros (e & H1 & H2); exists e; auto.
Qed.

Lemma reachable_entry_ok attrs history e :
  e ∈ metrics (after history (newMasterStateCollector attrs)) -> entry_ok attrs e.
Proof.
  destruct (reachable_ok attrs history) as (_ & Hok & _).
  exact (proj1 (Forall_forall _ _) Hok e).
Qed.

Lemma attributes_entry_reachable attrs history :
  attrs <> [] ->
  exists e, e ∈ metrics (after history (newMasterStateCollector attrs)) /\
            fqName (collector_desc (fst e)) = attributes_name /\
            snd e = slave_attributes (normaliseLabelList attrs)
                      (labels ++ normaliseLabelList attrs).
Proof.
  intros Hne.
  destruct (reachable_ok attrs history) as (Hs & _ & _).
  set (e0 := (counter "slave" "attributes" "Attributes assigned to slaves"
                (labels ++ normaliseLabelList attrs),
              slave_attributes (normaliseLabelList attrs)
                (labels ++ normaliseLabelList attrs))).
  assert (He0 : e0 ∈ metrics (newMasterStateCollector attrs)).
  { unfold newMasterStateCollector. destruct attrs as [|a l]; [congruence|].
    cbn [length Nat.ltb Nat.leb metrics]. apply elem_of_app. right. left. }
  destruct (same_shape_elem_of _ _ e0 Hs He0) as (e & He & Hd & _ & Hset).
  exists e. split; [exact He|]. split; [now rewrite Hd | exact Hset].
Qed.

Lemma set_all_const_kept {A : Type} (key : A -> list string) (v : float64)
    (xs : list A) (m : gmap (list string) float64) (k : list string) :
  m !! k = Some v -> set_all key (fun _ => v) xs m !! k = Some v.
Proof.
  intros Hm.
  destruct (set_all_lookup key (fun _ => v) xs m k) as [(x & _ & _ & Hl)|[_ Hl]];
    congruence.
Qed.

(** C2.  After a cycle on the snapshot S1 and a cycle on the snapshot S2, no
    sample of a gauge-style descriptor carries the labels of a node or of a
    framework of S1 that S2 lacks; the attribute counter is exempt: for
    every node of S1, in S2 or not, its row of value 1 is still sent by the
    cycle on S2. *)
Theorem stale_entities_disappear (attrs : list string) (history : list fetched)
    (S1 S2 : state) :
  let ch := cycle_output attrs (history ++ [FetchOk S1]) (FetchOk S2) in
  (forall m, m ∈ ch -> metric_desc m ∈ gauge_descs ->
     (forall s, s ∈ state_Slaves S1 ->
        (forall s2, s2 ∈ state_Slaves S2 -> slave_key s2 <> slave_key s) ->
        metric_labelValues m <> slave_key s) /\
     (forall f, f ∈ state_Frameworks S1 ->
        (forall f2, f2 ∈ state_Frameworks S2 -> framework_key f2 <> framework_key f) ->
        metric_labelValues m <> framework_key f)) /\
  (attrs <> [] ->
   forall s, s ∈ state_Slaves S1 ->
     exists m, m ∈ ch /\
               fqName (metric_desc m) = attributes_name /\
               metric_labelValues m = attribute_row (normaliseLabelList attrs) s /\
               metric_value m = 1%float).
Proof.
  intros ch. subst ch. split.
  - intros m Hm Hd.
    apply elem_of_cycle_output in Hm as (e & He & Hm).
    pose proof (reachable_entry_ok _ _ _ He) as Hok.
    unfold entry_ok in Hok. unfold step in Hm. cbn [fst snd fetchAndDecode] in Hm.
    inversion Hok as [d v Hl Hn Hdesc Hk Hset
                     |d v Hl Hn Hdesc Hk Hset
                     |d Hne Hn Hl Hdesc Hk Hset].
    + rewrite <- Hset, slave_gauge_eq in Hm.
      apply gauge_out_elem_of in Hm as (_ & x & Hx & Hkey & _). split.
      * intros s _ Habsent. rewrite Hkey. now apply Habsent.
      * intros f _ _. rewrite Hkey. discriminate.
    + rewrite <- Hset, framework_gauge_eq in Hm.
      apply gauge_out_elem_of in Hm as (_ & x & Hx & Hkey & _). split.
      * intros s _ _. rewrite Hkey. discriminate.
      * intros f _ Habsent. rewrite Hkey. now apply Habsent.
    + exfalso. rewrite <- Hset, slave_attributes_eq in Hm.
      apply elem_of_Collector_Collect in Hm as [Hdm _]. cbn in Hdm.
      apply gauge_descs_names in Hd. congruence.
  - intros Hne s Hs.
    destruct (attributes_entry_reachable attrs history Hne) as (e & He & Hn & Hset).
    set (e1 := step S1 e).
    exists {| metric_desc := collector_desc (fst e);
              metric_labelValues := attribute_row (normaliseLabelList attrs) s;
              metric_value := 1%float |}.
    split; [|split; [exact Hn | split; reflexivity]].
    apply elem_of_cycle_output. exists e1. split.
    + rewrite metrics_after_snoc. apply list_elem_of_fmap. exists e. now split.
    + apply elem_of_Collector_Collect.
      unfold e1, step. cbn [fst snd fetchAndDecode metric_desc metric_labelValues metric_value].
      rewrite Hset, !slave_attributes_eq.
      cbn [collector_desc collector_kind collector_values]. split; [reflexivity|].
      apply set_all_const_kept.
      destruct (set_all_lookup_elem (attribute_row (normaliseLabelList attrs))
                  (fun _ => 1%float) (state_Slaves S1) (collector_values (fst e)) s Hs)
        as (s' & _ & _ & Hl).
      exact Hl.
Qed.

(** An instance: the row of the node of [small_snapshot] after a cycle on the
    empty snapshot. *)
Lemma stale_entities_disappear_witness :
  ["rack"%string] <> [] /\
  small_node ∈ state_Slaves small_snapshot /\
  exists m, m ∈ cycle_output ["rack"%string] ([] ++ [FetchOk small_snapshot])
                  (FetchOk zero_state) /\
            fqName (metric_desc m) = attributes_name /\
            metric_labelValues m
              = attribute_row (normaliseLabelList ["rack"%string]) small_node /\
            metric_value m = 1%float.
Proof.
  assert (Hne : ["rack"%string] <> []) by discriminate.
  assert (Hs : small_node ∈ state_Slaves small_snapshot) by left.
  split; [exact Hne|]. split; [exact Hs|].
  exact (proj2 (stale_entities_disappear ["rack"%string] [] small_snapshot zero_state)
           Hne small_node Hs).
Defined.

(** The retired node of [small_snapshot] after a cycle on the empty snapshot:
    no gauge reports it, the attribute counter still does. *)
Example retired_node_row :
  (fun m => (fqName (metric_desc m), metric_labelValues m, metric_value m)) <$>
    cycle_output ["rack"%string] [FetchOk small_snapshot] (FetchOk zero_state)
  = [("mesos_slave_attributes"%string, ["s1"; EmptyString; "r1"]%string, 1%float)].
Proof. vm_compute. reflexivity. Qed.

(** A node that has taken the place of another: the gauges report the new
    node alone, the attribute counter both. *)
Example replaced_node_output :
  (fun m => (fqName (metric_desc m), metric_labelValues m)) <$>
    List.filter
      (fun m => String.eqb (fqName (metric_desc m)) "mesos_slave_cpus"
                || String.eqb (fqName (metric_desc m)) "mesos_slave_attributes")
      (cycle_output ["rack"%string] [FetchOk small_snapshot] (FetchOk other_snapshot))
  ≡ₚ [ ("mesos_slave_cpus", ["s2"; "h2"]);
       ("mesos_slave_attributes", ["s1"; EmptyString; "r1"]);
       ("mesos_slave_attributes", ["s2"; EmptyString; EmptyString]) ]%string.
Proof.
  vm_compute.
  match goal with
  | |- ?l ≡ₚ ?l => reflexivity
  | |- [?a; ?b; ?c] ≡ₚ [?a; ?c; ?b] => apply perm_skip, perm_swap
  end.
Qed.

(** ** A failed fetch *)

(** C5.  A cycle whose fetch fails is the cycle on the empty snapshot: the
    extraction function of every metric of the registry is run on it, and
    the samples of every metric are then sent; the gauges, reset and not
    repopulated, send nothing, and the attribute counter sends again every
    row that the cycle before sent. *)
Theorem failed_fetch_proceeds (attrs : list string) (history : list fetched) :
  let c := after history (newMasterStateCollector attrs) in
  Collect FetchError c = Collect (FetchOk zero_state) c /\
  metrics (fst (Collect FetchError c)) = step zero_state <$> metrics c /\
  snd (Collect FetchError c)
    = metrics c ≫= (fun e => Collector_Collect (fst (step zero_state e))) /\
  (forall e0, e0 ∈ fixed_metrics ->
     samples_of (entry_name e0) (cycle_output attrs history FetchError) = []) /\
  (forall o m,
     m ∈ cycle_output attrs history o ->
     fqName (metric_desc m) = attributes_name ->
     m ∈ cycle_output attrs (history ++ [o]) FetchError).
Proof.
  intros c. subst c.
  split; [reflexivity|]. split; [now rewrite Collect_eq|].
  split; [now rewrite Collect_eq|]. split.
  - intros e0 He0.
    change (cycle_output attrs history FetchError)
      with (cycle_output attrs history (FetchOk zero_state)).
    destruct (fixed_entry_cases e0 He0) as [[_ [v Hset]]|[_ [v Hset]]].
    + rewrite (slave_gauge_output attrs history zero_state e0 v He0 Hset).
      now apply gauge_out_nil.
    + rewrite (framework_gauge_output attrs history zero_state e0 v He0 Hset).
      now apply gauge_out_nil.
  - intros o m Hm Hname.
    apply elem_of_cycle_output in Hm as (e & He & Hm).
    apply elem_of_cycle_output.
    exists (step (fetchAndDecode o zero_state) e). split.
    + rewrite metrics_after_snoc. apply list_elem_of_fmap. exists e. now split.
    + pose proof (reachable_entry_ok _ _ _ He) as Hok.
      pose proof (entry_shape_keeps_desc _ _ _ _ Hok (fetchAndDecode o zero_state) (fst e))
        as [Hdesc _].
      apply elem_of_Collector_Collect in Hm as [Hd Hl].
      unfold step in Hd, Hl |- *. cbn [fst snd] in Hd, Hl |- *.
      unfold entry_ok in Hok.
      inversion Hok as [d v Hlab Hn Hdd Hk Hset
                       |d v Hlab Hn Hdd Hk Hset
                       |d Hne Hn Hlab Hdd Hk Hset];
        [exfalso; congruence | exfalso; congruence |].
      rewrite <- Hset in Hd, Hl |- *. rewrite slave_attributes_eq in Hd, Hl.
      rewrite !slave_attributes_eq. apply elem_of_Collector_Collect.
      cbn in Hd, Hl |- *. auto.
Qed.

(** The row of [small_snapshot] is sent again by a cycle whose fetch fails. *)
Example failed_fetch_row :
  (fun m => (fqName (metric_desc m), metric_labelValues m, metric_value m)) <$>
    cycle_output ["rack"%string] [FetchOk small_snapshot] FetchError
  = [("mesos_slave_attributes"%string, ["s1"; EmptyString; "r1"]%string, 1%float)].
Proof. vm_compute. reflexivity. Qed.

(** The end-to-end scenario: one node, no framework, the allow-list of rack
    alone. *)
Example scenario_output :
  (fun m => (fqName (metric_desc m), metric_labelValues m, metric_value m)) <$>
    cycle_output ["rack"%string] [] (FetchOk scenario)
  = [ ("mesos_slave_cpus", ["s1"; "h1"], 4%float);
      ("mesos_slave_cpus_used", ["s1"; "h1"], 0%float);
      ("mesos_slave_cpus_unreserved", ["s1"; "h1"], 0%float);
      ("mesos_slave_mem_bytes", ["s1"; "h1"], 1048576%float);
      ("mesos_slave_mem_used_bytes", ["s1"; "h1"], 0%float);
      ("mesos_slave_mem_unreserved_bytes", ["s1"; "h1"], 0%float);
      ("mesos_slave_disk_bytes", ["s1"; "h1"], 1048576%float);
      ("mesos_slave_disk_used_bytes", ["s1"; "h1"], 0%float);
      ("mesos_slave_disk_unreserved_bytes", ["s1"; "h1"], 0%float);
      ("mesos_slave_ports", ["s1"; "h1"], 1001%float);
      ("mesos_slave_ports_used", ["s1"; "h1"], 0%float);
      ("mesos_slave_ports_unreserved", ["s1"; "h1"], 0%float);
      ("mesos_slave_attributes", ["s1"; EmptyString; "r1"], 1%float) ]%string.
Proof. vm_compute. reflexivity. Qed.

(** An instance: the row of [small_snapshot] and a failed fetch after it. *)
Lemma failed_fetch_proceeds_witness :
  rack_sample ∈ cycle_output ["rack"%string] [] (FetchOk small_snapshot) /\
  fqName (metric_desc rack_sample) = attributes_name /\
  rack_sample ∈ cycle_output ["rack"%string] ([] ++ [FetchOk small_snapshot]) FetchError.
Proof.
  assert (Hm : rack_sample ∈ cycle_output ["rack"%string] [] (FetchOk small_snapshot)).
  { apply (list_elem_of_lookup_2 _ 12%nat). vm_compute. reflexivity. }
  split; [exact Hm|]. split; [reflexivity|].
  exact (proj2 (proj2 (proj2 (proj2 (failed_fetch_proceeds ["rack"%string] []))))
           (FetchOk small_snapshot) rack_sample Hm eq_refl).
Defined.

(** ** The attribute metric *)

Lemma stringInSlice_elem_of (a : string) (l : list string) :
  stringInSlice a l = true <-> a ∈ l.
Proof.
  unfold stringInSlice. rewrite existsb_exists. split.
  - intros (x & Hx & Heq). apply String.eqb_eq in Heq. subst.
    now apply list_elem_of_In.
  - intros Ha. exists a. split; [now apply list_elem_of_In | apply String.eqb_refl].
Qed.

Lemma slaveAttributesExport_eq (normalised : list string) (s : slave) :
  slaveAttributesExport normalised s
  = fold_left (export_attribute normalised) (slave_Attributes s)
      (default_labels normalised {[ "slave"%string := slave_PID s ]}).
Proof. reflexivity. Qed.

Lemma default_labels_lookup (normalised : list string) (export : gmap string string)
    (L : string) :
  default_labels normalised export !! L
  = if decide (L ∈ normalised) then Some EmptyString else export !! L.
Proof.
  unfold default_labels.
  induction normalised as [|a l IH] using rev_ind.
  - rewrite decide_False by (intros H; inversion H). reflexivity.
  - rewrite fold_left_app. cbn [fold_left].
    destruct (decide (a = L)) as [->|Hne].
    + rewrite lookup_insert_eq, decide_True; [reflexivity|].
      apply elem_of_app. right. left.
    + rewrite lookup_insert_ne by exact Hne. rewrite IH.
      destruct (decide (L ∈ l)) as [Hin|Hnin].
      * rewrite decide_True; [reflexivity | apply elem_of_app; now left].
      * rewrite decide_False; [reflexivity|].
        intros H. apply elem_of_app in H as [H|H]; [auto|].
        apply list_elem_of_singleton in H. congruence.
Qed.

(** A label that no string attribute of the node maps to keeps its value. *)
Lemma export_attributes_kept (normalised : list string) (L : string)
    (kvs : list (string * RawMessage)) :
  (forall k v, (k, v) ∈ kvs -> normaliseLabel k = L -> L ∈ normalised ->
               attributeString v = None) ->
  forall export, fold_left (export_attribute normalised) kvs export !! L = export !! L.
Proof.
  induction kvs as [|[k v] kvs IH]; intros Hnone export; [reflexivity|].
  cbn [fold_left]. rewrite IH.
  - unfold export_attribute. cbn [fst snd].
    destruct (stringInSlice (normaliseLabel k) normalised) eqn:Hin; [|reflexivity].
    destruct (attributeString v) as [a|] eqn:Hv; [|reflexivity].
    apply lookup_insert_ne. intros Heq.
    apply stringInSlice_elem_of in Hin. rewrite Heq in Hin.
    rewrite (Hnone k v) in Hv; [discriminate | left | exact Heq | exact Hin].
  - intros k' v' Hin'. apply Hnone. now right.
Qed.


Lemma attribute_row_lookup (normalised : list string) (s : slave) (j : nat) (L : string) :
  normalised !! j = Some L ->
  attribute_row normalised s !! (2 + j)%nat
  = Some (default EmptyString (slaveAttributesExport normalised s !! L)).
Proof.
  intros Hj. unfold attribute_row, getLabelValuesFromMap.
  rewrite list_lookup_fmap.
  change (labels ++ normalised) with ("slave"%string :: "hostname"%string :: normalised).
  cbn [lookup list_lookup Nat.add]. change (normalised !! j) with (lookup j normalised).
  now rewrite Hj.
Qed.

Lemma attribute_entry_extraction attrs history (e : Collector * extraction) :
  e ∈ metrics (after history (newMasterStateCollector attrs)) ->
  entry_name e = attributes_name ->
  attrs <> [] /\
  variableLabels (collector_desc (fst e)) = labels ++ normaliseLabelList attrs /\
  snd e = slave_attributes (normaliseLabelList attrs) (labels ++ normaliseLabelList attrs).
Proof.
  intros He Hname.
  pose proof (reachable_entry_ok attrs history e He) as Hok.
  unfold entry_ok in Hok. unfold entry_name in Hname.
  inversion Hok; try congruence. auto.
Qed.

(** Outside an allow-listed name, the hostname label of a row is empty: the
    closure never puts the hostname of the node into the label map. *)
Lemma attribute_row_hostname (normalised : list string) (s : slave) :
  "hostname"%string ∉ normalised ->
  attribute_row normalised s !! 1%nat = Some EmptyString.
Proof.
  intros Hnot. unfold attribute_row, getLabelValuesFromMap.
  rewrite list_lookup_fmap. cbn [labels app lookup list_lookup fmap option_fmap option_map].
  rewrite slaveAttributesExport_eq, export_attributes_kept, default_labels_lookup.
  - rewrite decide_False by exact Hnot. reflexivity.
  - intros k v _ _ Hin. contradiction.
Qed.






(** * Further properties of the range codec *)

Lemma Split_length (s : bytes) (sep : ascii) :
  length (Split s sep) = S (count_byte sep s).
Proof.
  induction s as [|c s IH]; [reflexivity|].
  cbn [Split count_byte]. destruct (Ascii.eqb c sep).
  - cbn [length]. now rewrite IH.
  - destruct (Split s sep) as [|piece pieces]; [discriminate IH|].
    cbn [length] in *. exact IH.
Qed.

(** The loop on a receiver is the loop on the empty receiver, appended. *)
Lemma UnmarshalJSON_loop_receiver (tokens : list bytes) :
  forall rs,
    UnmarshalJSON_loop tokens rs
    = (rs ++ fst (UnmarshalJSON_loop tokens []), snd (UnmarshalJSON_loop tokens [])).
Proof.
  induction tokens as [|r tokens IH]; intros rs; cbn [UnmarshalJSON_loop].
  - cbn. now rewrite app_nil_r.
  - destruct (parseRange r) as [rng|e].
    + rewrite (IH (rs ++ [rng])), (IH ([] ++ [rng])). cbn [fst snd app].
      now rewrite <- app_assoc.
    + cbn. now rewrite app_nil_r.
Qed.

(** X1.  A parse that returns no error on a text that is not empty once the
    decoration is stripped has appended to the receiver one range per token,
    in the order of the tokens: as many ranges as the text has commas, plus
    one. *)
Theorem UnmarshalJSON_ok_receiver (data : bytes) (rs rs' : ranges) :
  UnmarshalJSON data rs = (rs', None) ->
  Trim data decoration <> [] ->
  exists parsed,
    rs' = rs ++ parsed /\
    Forall2 (fun r rng => parseRange r = inl rng)
      (Split (Trim data decoration) comma) parsed /\
    length parsed = S (count_byte comma (Trim data decoration)).
Proof.
  unfold UnmarshalJSON. intros H Hne.
  destruct (Trim data decoration) as [|c t] eqn:Ht; [congruence|].
  destruct (UnmarshalJSON_loop_ok _ _ _ H) as (parsed & HF & ->).
  exists parsed. repeat split; auto.
  rewrite <- (Forall2_length _ _ _ HF). apply Split_length.
Qed.

(** An instance: three tokens in brackets, into a receiver of one range. *)
Lemma UnmarshalJSON_ok_receiver_witness :
  UnmarshalJSON (of_string "[7-9, 1-2,30-31]") [(0, 0)]
    = ([(0, 0); (7, 9); (1, 2); (30, 31)], None) /\
  Trim (of_string "[7-9, 1-2,30-31]") decoration <> [] /\
  exists parsed,
    [(0, 0); (7, 9); (1, 2); (30, 31)] = [(0, 0)] ++ parsed /\
    Forall2 (fun r rng => parseRange r = inl rng)
      (Split (Trim (of_string "[7-9, 1-2,30-31]") decoration) comma) parsed /\
    length parsed = S (count_byte comma (Trim (of_string "[7-9, 1-2,30-31]") decoration)).
Proof.
  assert (E : UnmarshalJSON (of_string "[7-9, 1-2,30-31]") [(0, 0)]
              = ([(0, 0); (7, 9); (1, 2); (30, 31)], None)) by (vm_compute; reflexivity).
  assert (Hne : Trim (of_string "[7-9, 1-2,30-31]") decoration <> [])
    by (vm_compute; discriminate).
  split; [exact E|]. split; [exact Hne|].
  exact (UnmarshalJSON_ok_receiver _ _ _ E Hne).
Defined.

(** X2.  The receiver is never cleared: whatever the text, the receiver after
    the call is the receiver before it followed by what the same text gives
    on an empty receiver, and the error is the same; so decoding a second
    text into the same receiver accumulates the ranges of both. *)
Theorem UnmarshalJSON_accumulates (data data2 : bytes) (rs : ranges) :
  UnmarshalJSON data rs
    = (rs ++ fst (UnmarshalJSON data []), snd (UnmarshalJSON data [])) /\
  fst (UnmarshalJSON data2 (fst (UnmarshalJSON data rs)))
    = rs ++ fst (UnmarshalJSON data []) ++ fst (UnmarshalJSON data2 []).
Proof.
  assert (H : forall d r, UnmarshalJSON d r
                = (r ++ fst (UnmarshalJSON d []), snd (UnmarshalJSON d []))).
  { intros d r. unfold UnmarshalJSON.
    destruct (Trim d decoration) as [|c t]; [cbn; now rewrite app_nil_r|].
    apply UnmarshalJSON_loop_receiver. }
  split; [apply H|].
  rewrite (H data2), (H data rs). cbn [fst]. now rewrite <- app_assoc.
Qed.

Section Trimming.

Context (cutset : bytes).

Lemma TrimLeft_cutset (pre s : bytes) :
  Forall (fun c => mem c cutset = true) pre ->
  TrimLeft (pre ++ s) cutset = TrimLeft s cutset.
Proof.
  induction 1 as [|c pre Hc _ IH]; [reflexivity|].
  cbn [app TrimLeft]. now rewrite Hc.
Qed.

Lemma TrimLeft_all (s : bytes) :
  Forall (fun c => mem c cutset = true) s -> TrimLeft s cutset = [].
Proof.
  intros H. rewrite <- (app_nil_r s). now rewrite TrimLeft_cutset.
Qed.

Lemma TrimLeft_app (s post : bytes) :
  TrimLeft s cutset <> [] ->
  TrimLeft (s ++ post) cutset = TrimLeft s cutset ++ post.
Proof.
  induction s as [|c s IH]; intros Hne; [now contradict Hne|].
  cbn [app TrimLeft] in *. destruct (mem c cutset); [now apply IH | reflexivity].
Qed.

Lemma TrimLeft_nil_all (s : bytes) :
  TrimLeft s cutset = [] -> Forall (fun c => mem c cutset = true) s.
Proof.
  induction s as [|c s IH]; intros H; [constructor|].
  cbn [TrimLeft] in H. destruct (mem c cutset) eqn:Hc; [|discriminate].
  constructor; auto.
Qed.

Lemma TrimRight_cutset (s post : bytes) :
  Forall (fun c => mem c cutset = true) post ->
  TrimRight (s ++ post) cutset = TrimRight s cutset.
Proof.
  intros H. unfold TrimRight. rewrite rev_app_distr.
  rewrite TrimLeft_cutset; [reflexivity|].
  apply Forall_forall. intros c Hc. apply list_elem_of_In, in_rev, list_elem_of_In in Hc.
  exact (proj1 (Forall_forall _ _) H c Hc).
Qed.

(** Bytes of the cutset around a text do not change what [Trim] gives. *)
Lemma Trim_wrapped (pre s post : bytes) :
  Forall (fun c => mem c cutset = true) pre ->
  Forall (fun c => mem c cutset = true) post ->
  Trim (pre ++ s ++ post) cutset = Trim s cutset.
Proof.
  intros Hpre Hpost. unfold Trim. rewrite TrimLeft_cutset by exact Hpre.
  destruct (TrimLeft s cutset) as [|c t] eqn:E.
  - rewrite TrimLeft_all; [reflexivity|].
    apply Forall_app. split; [now apply TrimLeft_nil_all | exact Hpost].
  - rewrite TrimLeft_app by (rewrite E; discriminate).
    rewrite E. now apply TrimRight_cutset.
Qed.

End Trimming.

(** X3.  Brackets and double quotes around the text, in any number and
    order, do not change the result of the parse. *)
Theorem UnmarshalJSON_decoration (pre data post : bytes) (rs : ranges) :
  Forall (fun c => mem c decoration = true) pre ->
  Forall (fun c => mem c decoration = true) post ->
  UnmarshalJSON (pre ++ data ++ post) rs = UnmarshalJSON data rs.
Proof.
  intros Hpre Hpost. unfold UnmarshalJSON. now rewrite Trim_wrapped.
Qed.

(** An instance: the port pool as the snapshot writes it, in brackets. *)
Lemma UnmarshalJSON_decoration_witness :
  Forall (fun c => mem c decoration = true) (of_string "[") /\
  Forall (fun c => mem c decoration = true) (of_string "]") /\
  UnmarshalJSON (of_string "[" ++ of_string "31000-32000" ++ of_string "]") []
  = UnmarshalJSON (of_string "31000-32000") [].
Proof.
  assert (H1 : Forall (fun c => mem c decoration = true) (of_string "["))
    by (repeat constructor).
  assert (H2 : Forall (fun c => mem c decoration = true) (of_string "]"))
    by (repeat constructor).
  split; [exact H1|]. split; [exact H2|].
  exact (UnmarshalJSON_decoration _ _ _ [] H1 H2).
Defined.

Lemma is_digit_range (c : ascii) :
  is_digit c = true -> 0 <= byte_val c - 48 <= 9.
Proof. unfold is_digit. intros H. apply andb_true_iff in H as [H1 H2]. lia. Qed.

Lemma decimal_from_ge (s : bytes) :
  forall n, forallb is_digit s = true -> 0 <= n -> n <= decimal_from n s.
Proof.
  unfold decimal_from.
  induction s as [|c s IH]; intros n Hs Hn; cbn [fold_left]; [lia|].
  cbn [forallb] in Hs. apply andb_true_iff in Hs as [Hc Hs].
  apply is_digit_range in Hc.
  etransitivity; [|apply IH; [exact Hs | lia]]. lia.
Qed.

(** The digit loop returns a value exactly for digits whose value fits. *)
Lemma ParseUint_loop_spec (s0 s : bytes) :
  forall n v, 0 <= n <= maxUint64 ->
    (ParseUint_loop s0 s n = inl v <->
     forallb is_digit s = true /\ decimal_from n s = v /\ v <= maxUint64).
Proof.
  induction s as [|c s IH]; intros n v Hn.
  - cbn. split.
    + intros H. inversion H; subst. repeat split; lia.
    + intros (_ & <- & _). reflexivity.
  - cbn [ParseUint_loop forallb]. destruct (is_digit c) eqn:Hc.
    2:{ split; [discriminate | intros (H & _); discriminate]. }
    pose proof (is_digit_range c Hc) as Hd. cbn [andb].
    change (decimal_from n (c :: s)) with (decimal_from (n * 10 + (byte_val c - 48)) s).
    change cutoff with 1844674407370955162.
    change maxUint64 with 18446744073709551615 in *.
    change (2 ^ 64) with 18446744073709551616.
    destruct (Z.leb_spec 1844674407370955162 n) as [Hcut|Hcut].
    + split; [discriminate|]. intros (Hs & Hv & Hle).
      pose proof (decimal_from_ge s (n * 10 + (byte_val c - 48)) Hs ltac:(lia)). lia.
    + rewrite (Z.mod_small (n * 10)) by lia.
      destruct (Z_lt_ge_dec (n * 10 + (byte_val c - 48)) 18446744073709551616)
        as [Hfit|Hover].
      * rewrite (Z.mod_small (n * 10 + (byte_val c - 48))) by lia.
        destruct (Z.ltb_spec (n * 10 + (byte_val c - 48)) (n * 10)); [lia|].
        destruct (Z.ltb_spec 18446744073709551615 (n * 10 + (byte_val c - 48))); [lia|].
        cbn [orb]. apply IH. lia.
      * assert (Hm : (n * 10 + (byte_val c - 48)) mod 18446744073709551616
                     = n * 10 + (byte_val c - 48) - 18446744073709551616).
        { symmetry. apply (Z.mod_unique _ _ 1); lia. }
        rewrite Hm.
        destruct (Z.ltb_spec (n * 10 + (byte_val c - 48) - 18446744073709551616) (n * 10));
          [|lia].
        cbn [orb]. split; [discriminate|]. intros (Hs & Hv & Hle).
        pose proof (decimal_from_ge s (n * 10 + (byte_val c - 48)) Hs ltac:(lia)). lia.
Qed.

Lemma ParseUint_spec (s : bytes) (n : Z) :
  ParseUint s = inl n <-> is_number s n.
Proof.
  unfold ParseUint, is_number. destruct s as [|c s].
  - split; [discriminate | intros (H & _); congruence].
  - rewrite ParseUint_loop_spec by (change maxUint64 with 18446744073709551615; lia).
    split; [intros H; split; [discriminate | exact H] | intros (_ & H); exact H].
Qed.

(** X4.  A token is accepted exactly when it holds a dash and the text on
    each side of its first dash is, once the white space around it is
    trimmed, a non-empty text of decimal digits whose value is at most
    2^64-1; the range is then the pair of the two values, each within
    [uint64]. *)
Theorem parseRange_accepts (r : bytes) (lo hi : Z) :
  parseRange r = inl (lo, hi) <->
  exists p0 p1,
    cut r dash = Some (p0, p1) /\
    is_number (TrimSpace p0) lo /\ is_number (TrimSpace p1) hi /\
    0 <= lo < 2 ^ 64 /\ 0 <= hi < 2 ^ 64.
Proof.
  unfold parseRange, SplitN2. split.
  - destruct (cut r dash) as [[p0 p1]|]; [|discriminate].
    destruct (ParseUint (TrimSpace p0)) as [a|e] eqn:E0; [|discriminate].
    destruct (ParseUint (TrimSpace p1)) as [b|e] eqn:E1; [|discriminate].
    intros H. inversion H; subst.
    apply ParseUint_spec in E0, E1. exists p0, p1.
    destruct E0 as (N0 & D0 & V0 & M0), E1 as (N1 & D1 & V1 & M1).
    pose proof (decimal_from_ge _ 0 D0 ltac:(lia)).
    pose proof (decimal_from_ge _ 0 D1 ltac:(lia)).
    change maxUint64 with 18446744073709551615 in *.
    change (2 ^ 64) with 18446744073709551616.
    repeat split; auto; lia.
  - intros (p0 & p1 & -> & H0 & H1 & _).
    apply ParseUint_spec in H0, H1. now rewrite H0, H1.
Qed.

(** An instance: leading zeros and white space around the bounds. *)
Lemma parseRange_accepts_witness :
  parseRange (of_string " 007 - 42 ") = inl (7, 42) /\
  exists p0 p1,
    cut (of_string " 007 - 42 ") dash = Some (p0, p1) /\
    is_number (TrimSpace p0) 7 /\ is_number (TrimSpace p1) 42 /\
    0 <= 7 < 2 ^ 64 /\ 0 <= 42 < 2 ^ 64.
Proof.
  assert (E : parseRange (of_string " 007 - 42 ") = inl (7, 42))
    by (vm_compute; reflexivity).
  split; [exact E|].
  exact (proj1 (parseRange_accepts (of_string " 007 - 42 ") 7 42) E).
Defined.

Lemma wrap64_range (z : Z) : 0 <= wrap64 z < 2 ^ 64.
Proof. unfold wrap64. apply Z.mod_pos_bound. lia. Qed.

Lemma wrap64_idem (z : Z) : wrap64 (wrap64 z) = wrap64 z.
Proof. unfold wrap64. apply Z.mod_mod. lia. Qed.

Lemma range_sum_Permutation (rs rs' : ranges) :
  rs ≡ₚ rs' -> range_sum rs = range_sum rs'.
Proof.
  induction 1 as [|r rs rs' _ IH|r1 r2 rs|rs1 rs2 rs3 _ IH1 _ IH2].
  - reflexivity.
  - rewrite !range_sum_cons. lia.
  - rewrite !range_sum_cons. lia.
  - congruence.
Qed.

(** X5.  The size is a [uint64] whatever the pairs are; the size of the empty
    list is 0; the size of two lists put together is the sum of their sizes,
    in [uint64]. *)
Theorem size_additive (rs1 rs2 : ranges) :
  0 <= size rs1 < 2 ^ 64 /\
  size [] = 0 /\
  size (rs1 ++ rs2) = wrap64 (size rs1 + size rs2).
Proof.
  split; [rewrite size_wrap; apply wrap64_range|]. split; [reflexivity|].
  rewrite !size_wrap, range_sum_app, wrap64_add_l, wrap64_add_r. reflexivity.
Qed.

(** X6.  The size does not depend on the order of the pairs. *)
Theorem size_order (rs rs' : ranges) :
  rs ≡ₚ rs' -> size rs = size rs'.
Proof. intros H. rewrite !size_wrap. now rewrite (range_sum_Permutation _ _ H). Qed.

(** An instance: two pools in both orders. *)
Lemma size_order_witness :
  [(0, 3); (10, 12)] ≡ₚ [(10, 12); (0, 3)] /\
  size [(0, 3); (10, 12)] = size [(10, 12); (0, 3)].
Proof.
  assert (H : [(0, 3); (10, 12)] ≡ₚ [(10, 12); (0, 3)]) by apply perm_swap.
  split; [exact H|]. exact (size_order _ _ H).
Defined.

(** X7.  The bounds of a pair are not compared: a text whose low bound is
    above its high bound is parsed without an error; a pair whose low
    bound is more than one above its high bound counts
    2^64 - (lo - hi) + 1, the pair (lo, lo - 1) counts 0, and the pair
    (5, 3), parsed from [5-3], counts 2^64 - 1. *)
Theorem size_inverted_pair (lo hi : Z) :
  0 <= hi -> hi + 1 < lo -> lo < 2 ^ 64 ->
  size [(lo, hi)] = 2 ^ 64 - (lo - hi) + 1 /\
  size [(lo, lo - 1)] = 0 /\
  parse "5-3" = ([(5, 3)], None) /\
  size (fst (parse "5-3")) = 18446744073709551615.
Proof.
  intros Hhi Hlt Hlo. change (2 ^ 64) with 18446744073709551616 in *.
  split; [|split; [|split; [vm_compute; reflexivity | vm_compute; reflexivity]]].
  - rewrite size_wrap. cbn [range_sum fold_right fst snd]. unfold wrap64.
    change (2 ^ 64) with 18446744073709551616.
    symmetry. apply (Z.mod_unique _ _ (-1)); lia.
  - rewrite size_wrap. cbn [range_sum fold_right fst snd]. unfold wrap64.
    replace (lo - 1 - lo + 1 + 0) with 0 by lia. reflexivity.
Qed.

(** An instance: the port pool written backwards. *)
Lemma size_inverted_pair_witness :
  0 <= 31000 /\ 31000 + 1 < 32000 /\ 32000 < 2 ^ 64 /\
  size [(32000, 31000)] = 2 ^ 64 - (32000 - 31000) + 1.
Proof.
  assert (H0 : 0 <= 31000) by lia.
  assert (H1 : 31000 + 1 < 32000) by lia.
  assert (H2 : 32000 < 2 ^ 64) by (vm_compute; reflexivity).
  split; [exact H0|]. split; [exact H1|]. split; [exact H2|].
  exact (proj1 (size_inverted_pair 32000 31000 H0 H1 H2)).
Defined.

(** * Further properties of the gauges *)

Lemma port_quantities_registered name q :
  (name, q) ∈ port_quantities ->
  exists e0, e0 ∈ fixed_metrics /\ entry_name e0 = name /\ snd e0 = slave_gauge q.
Proof.
  intros Hin. unfold port_quantities in Hin.
  repeat (apply elem_of_cons in Hin as [Heq|Hin];
          [inversion Heq; subst; clear Heq|]);
    [..|inversion Hin].
  - registered_at 9%nat.
  - registered_at 10%nat.
  - registered_at 11%nat.
Qed.

(** X8.  For every snapshot, every sample of the three port metrics carries
    the labels of a node of the snapshot and the size of the port pool of
    that node, converted to a float, and every node has such a sample under
    its labels; the pool 31000-32000 reports 1001. *)
Theorem ports_reported (attrs : list string) (history : list fetched) (S : state) :
  (forall name q, (name, q) ∈ port_quantities ->
     let out := samples_of name (cycle_output attrs history (FetchOk S)) in
     (forall m, m ∈ out ->
        exists s, s ∈ state_Slaves S /\
                  metric_labelValues m = slave_key s /\ metric_value m = q s) /\
     (forall s, s ∈ state_Slaves S ->
        exists m s', m ∈ out /\ metric_labelValues m = slave_key s /\
                     s' ∈ state_Slaves S /\ slave_key s' = slave_key s /\
                     metric_value m = q s')) /\
  metric_value <$>
    samples_of "mesos_slave_ports" (cycle_output attrs [] (FetchOk small_snapshot))
  = [1001%float].
Proof.
  split.
  - intros name q Hin out. subst out.
    destruct (port_quantities_registered name q Hin) as (e0 & He0 & <- & Hset).
    rewrite (slave_gauge_output attrs history S e0 q He0 Hset). split.
    + intros m Hm. now apply gauge_out_elem_of in Hm as [_ H].
    + intros s Hs. now apply gauge_out_of_elem.
  - assert (Hin : ("mesos_slave_ports"%string,
                   fun s => float64_of_uint64 (size (resources_Ports (slave_Total s))))
                  ∈ port_quantities) by left.
    destruct (port_quantities_registered _ _ Hin) as (e0 & He0 & <- & Hset).
    rewrite (slave_gauge_output attrs [] small_snapshot e0 _ He0 Hset).
    vm_compute. reflexivity.
Qed.

(** An instance: the used ports of the node of [small_snapshot]. *)
Lemma ports_reported_witness :
  ("mesos_slave_ports_used"%string,
   fun s => float64_of_uint64 (size (resources_Ports (slave_Used s)))) ∈ port_quantities /\
  small_node ∈ state_Slaves small_snapshot /\
  exists m s', m ∈ samples_of "mesos_slave_ports_used"
                     (cycle_output [] [] (FetchOk small_snapshot)) /\
               metric_labelValues m = slave_key small_node /\
               s' ∈ state_Slaves small_snapshot /\
               slave_key s' = slave_key small_node /\
               metric_value m = float64_of_uint64 (size (resources_Ports (slave_Used s'))).
Proof.
  assert (Hin : ("mesos_slave_ports_used"%string,
                 fun s => float64_of_uint64 (size (resources_Ports (slave_Used s))))
                ∈ port_quantities).
  { apply (list_elem_of_lookup_2 _ 1%nat). reflexivity. }
  assert (Hs : small_node ∈ state_Slaves small_snapshot) by left.
  split; [exact Hin|]. split; [exact Hs|].
  exact (proj2 (proj1 (ports_reported [] [] small_snapshot) _ _ Hin) small_node Hs).
Defined.

(** X9.  For every snapshot, every sample of mesos_framework_active carries
    the name of a framework of the snapshot and the value 1 when that
    framework is active, 0 when it is not; so its value is 0 or 1; and every
    framework has a sample under its name. *)
Theorem active_reported (attrs : list string) (history : list fetched) (S : state) :
  let out := samples_of "mesos_framework_active"
               (cycle_output attrs history (FetchOk S)) in
  (forall m, m ∈ out ->
     (metric_value m = 0%float \/ metric_value m = 1%float) /\
     exists f, f ∈ state_Frameworks S /\
               metric_labelValues m = [framework_Name f] /\
               (framework_Active f = true -> metric_value m = 1%float) /\
               (framework_Active f = false -> metric_value m = 0%float)) /\
  (forall f, f ∈ state_Frameworks S ->
     exists m, m ∈ out /\ metric_labelValues m = [framework_Name f]).
Proof.
  intros out. subst out.
  change "mesos_framework_active"%string with (entry_name framework_active_entry).
  rewrite (framework_gauge_output attrs history S framework_active_entry active_value
             framework_active_entry_fixed eq_refl).
  split.
  - intros m Hm. apply gauge_out_elem_of in Hm as (_ & f & Hf & Hk & Hv).
    unfold active_value in Hv. split.
    + destruct (framework_Active f); auto.
    + exists f. repeat split; auto; intros Ha; now rewrite Ha in Hv.
  - intros f Hf.
    destruct (gauge_out_of_elem framework_key active_value
                (collector_desc (fst framework_active_entry))
                (collector_kind (fst framework_active_entry))
                (state_Frameworks S) f Hf) as (m & _ & Hm & Hk & _).
    eauto.
Qed.

(** Among elements with the same key the last one sets the value. *)
Lemma set_all_last {A : Type} (key : A -> list string) (value : A -> float64)
    (pre post : list A) (x : A) (m : gmap (list string) float64) :
  (forall y, y ∈ post -> key y <> key x) ->
  set_all key value (pre ++ x :: post) m !! key x = Some (value x).
Proof.
  intros Hpost. unfold set_all. rewrite fold_left_app. cbn [fold_left].
  fold (set_all key value pre m).
  fold (set_all key value post (<[key x := value x]> (set_all key value pre m))).
  destruct (set_all_lookup key value post
              (<[key x := value x]> (set_all key value pre m)) (key x))
    as [(y & Hy & Hk & _)|[_ Hl]].
  - now destruct (Hpost y Hy).
  - rewrite Hl. apply lookup_insert_eq.
Qed.

(** X10.  When several nodes of a snapshot have the same labels, or several
    frameworks the same name, the one sample under these labels carries the
    value of the last of them in the order of the snapshot. *)
Theorem last_entity_wins (attrs : list string) (history : list fetched) (S : state)
    (e0 : Collector * extraction) :
  e0 ∈ fixed_metrics ->
  let out := samples_of (entry_name e0) (cycle_output attrs history (FetchOk S)) in
  (forall value pre x post,
     snd e0 = slave_gauge value ->
     state_Slaves S = pre ++ x :: post ->
     (forall y, y ∈ post -> slave_key y <> slave_key x) ->
     forall m, m ∈ out -> metric_labelValues m = slave_key x ->
               metric_value m = value x) /\
  (forall value pre x post,
     snd e0 = framework_gauge value ->
     state_Frameworks S = pre ++ x :: post ->
     (forall y, y ∈ post -> framework_key y <> framework_key x) ->
     forall m, m ∈ out -> metric_labelValues m = framework_key x ->
               metric_value m = value x).
Proof.
  intros Hin out. subst out. split.
  - intros value pre x post Hset HS Hpost m Hm Hlv.
    rewrite (slave_gauge_output attrs history S e0 value Hin Hset) in Hm.
    apply elem_of_Collector_Collect in Hm as [_ Hl]. cbn in Hl.
    rewrite Hlv, HS, (set_all_last slave_key value pre post x ∅ Hpost) in Hl.
    now inversion Hl.
  - intros value pre x post Hset HS Hpost m Hm Hlv.
    rewrite (framework_gauge_output attrs history S e0 value Hin Hset) in Hm.
    apply elem_of_Collector_Collect in Hm as [_ Hl]. cbn in Hl.
    rewrite Hlv, HS, (set_all_last framework_key value pre post x ∅ Hpost) in Hl.
    now inversion Hl.
Qed.

Lemma slave_cpus_entry_fixed : slave_cpus_entry ∈ fixed_metrics.
Proof. apply (list_elem_of_lookup_2 _ 0%nat). reflexivity. Defined.

(** An instance: of the two nodes of [twin_nodes], with 4 and 16 cpus, the
    second is reported. *)
Lemma last_entity_wins_witness :
  slave_cpus_entry ∈ fixed_metrics /\
  metric_value <$>
    samples_of (entry_name slave_cpus_entry) (cycle_output [] [] (FetchOk twin_nodes))
  = [16%float] /\
  forall m,
    m ∈ samples_of (entry_name slave_cpus_entry) (cycle_output [] [] (FetchOk twin_nodes)) ->
    metric_labelValues m = slave_key twin_node ->
    metric_value m = resources_CPUs (slave_Total twin_node).
Proof.
  split; [exact slave_cpus_entry_fixed|]. split; [vm_compute; reflexivity|].
  refine (proj1 (last_entity_wins [] [] twin_nodes slave_cpus_entry slave_cpus_entry_fixed)
            (fun s => resources_CPUs (slave_Total s)) [small_node] twin_node []
            eq_refl eq_refl _).
  intros y Hy. inversion Hy.
Defined.

(** X11.  The gauges keep nothing from one cycle to the next: the samples of
    a gauge sent by a cycle on a snapshot are the same whatever cycles came
    before, and whatever the allow-list of attributes is. *)
Theorem gauges_have_no_memory (attrs attrs' : list string)
    (history history' : list fetched) (S : state) (e0 : Collector * extraction) :
  e0 ∈ fixed_metrics ->
  samples_of (entry_name e0) (cycle_output attrs history (FetchOk S))
  = samples_of (entry_name e0) (cycle_output attrs' history' (FetchOk S)).
Proof.
  intros Hin.
  destruct (fixed_entry_cases e0 Hin) as [[_ [v Hset]]|[_ [v Hset]]].
  - now rewrite !(slave_gauge_output _ _ S e0 v Hin Hset).
  - now rewrite !(framework_gauge_output _ _ S e0 v Hin Hset).
Qed.

(** An instance: the cpus of [twin_nodes] at startup and after two other
    cycles. *)
Lemma gauges_have_no_memory_witness :
  slave_cpus_entry ∈ fixed_metrics /\
  samples_of (entry_name slave_cpus_entry) (cycle_output [] [] (FetchOk twin_nodes))
  = samples_of (entry_name slave_cpus_entry)
      (cycle_output ["rack"%string] [FetchOk small_snapshot; FetchError]
         (FetchOk twin_nodes)).
Proof.
  split; [exact slave_cpus_entry_fixed|].
  exact (gauges_have_no_memory [] ["rack"%string] [] [FetchOk small_snapshot; FetchError]
           twin_nodes slave_cpus_entry slave_cpus_entry_fixed).
Defined.

(** * Further properties of the collection cycle *)

Lemma set_all_const_idem {A : Type} (key : A -> list string) (v : float64)
    (xs : list A) (m : gmap (list string) float64) :
  set_all key (fun _ => v) xs (set_all key (fun _ => v) xs m)
  = set_all key (fun _ => v) xs m.
Proof.
  apply map_eq. intros k.
  destruct (set_all_lookup key (fun _ => v) xs m k) as [(x & Hx & Hk & Hl)|[Hnone Hl]].
  - rewrite Hl. now apply set_all_const_kept.
  - destruct (set_all_lookup key (fun _ => v) xs (set_all key (fun _ => v) xs m) k)
      as [(x & Hx & Hk & _)|[_ Hl']].
    + now destruct (Hnone x Hx).
    + exact Hl'.
Qed.

Lemma step_idem attrs (s : state) (e : Collector * extraction) :
  entry_ok attrs e -> step s (step s e) = step s e.
Proof.
  unfold entry_ok, step. destruct e as [c set]. cbn [fst snd].
  intros Hok. f_equal.
  inversion Hok as [d v Hl Hn Hd Hk Hset|d v Hl Hn Hd Hk Hset|d Hne Hn Hl Hd Hk Hset].
  - now rewrite !slave_gauge_eq.
  - now rewrite !framework_gauge_eq.
  - rewrite !slave_attributes_eq. cbn [collector_desc collector_kind collector_values].
    now rewrite set_all_const_idem.
Qed.

(** A cycle run again on the same state, its attributes visited in the same
    order, leaves the registry as the first run left it and sends the same
    samples. *)
Lemma Collect_repeat (attrs : list string) (history : list fetched)
    (outcome : fetched) :
  let c := after history (newMasterStateCollector attrs) in
  Collect outcome (fst (Collect outcome c)) = Collect outcome c.
Proof.
  intros c. subst c. rewrite !Collect_eq. cbn [fst metrics].
  set (s := fetchAndDecode outcome zero_state).
  set (ms := metrics (after history (newMasterStateCollector attrs))).
  assert (Hok : Forall (entry_ok attrs) ms) by apply reachable_ok.
  assert (Hstep : step s <$> (step s <$> ms) = step s <$> ms).
  { clear -Hok. induction Hok as [|e ms He _ IH]; [reflexivity|].
    rewrite !fmap_cons, IH. f_equal. exact (step_idem attrs s e He). }
  f_equal.
  - now rewrite Hstep.
  - clear Hstep. induction Hok as [|e ms He _ IH]; [reflexivity|].
    rewrite fmap_cons, !bind_cons, IH. f_equal.
    now rewrite (step_idem attrs s e He).
Qed.

(** Elements that agree on key and value, one by one, set the same values. *)
Lemma set_all_Forall2 {A : Type} (key : A -> list string) (value : A -> float64)
    (xs ys : list A) :
  Forall2 (fun x y => key x = key y /\ value x = value y) xs ys ->
  forall m, set_all key value xs m = set_all key value ys m.
Proof.
  unfold set_all. induction 1 as [|x y xs ys [Hk Hv] _ IH]; intros m; [reflexivity|].
  cbn [fold_left]. now rewrite Hk, Hv, IH.
Qed.

(** The label that the second inner loop of the attribute closure leaves
    under a name: the string of an attribute of that name, or what was
    there when the node has no string attribute of that name. *)
Lemma export_attributes_lookup (normalised : list string) (L : string)
    (kvs : list (string * RawMessage)) (export : gmap string string) :
  (exists k v a, (k, v) ∈ kvs /\ normaliseLabel k = L /\ L ∈ normalised /\
                 attributeString v = Some a /\
                 fold_left (export_attribute normalised) kvs export !! L = Some a)
  \/ ((forall k v, (k, v) ∈ kvs -> normaliseLabel k = L -> L ∈ normalised ->
                   attributeString v = None) /\
      fold_left (export_attribute normalised) kvs export !! L = export !! L).
Proof.
  induction kvs as [|[k v] kvs IH] using rev_ind.
  - right. split; [|reflexivity]. intros k v H. inversion H.
  - rewrite fold_left_app. cbn [fold_left]. unfold export_attribute at 1 3. cbn [fst snd].
    destruct (decide (normaliseLabel k = L)) as [Hk|Hk].
    + destruct (stringInSlice (normaliseLabel k) normalised) eqn:Hin.
      * apply stringInSlice_elem_of in Hin.
        destruct (attributeString v) as [a|] eqn:Hv.
        -- left. exists k, v, a. rewrite Hk in Hin |- *. rewrite lookup_insert_eq.
           repeat split; auto. apply elem_of_app. right. left.
        -- destruct IH as [(k0 & v0 & a0 & H0 & Hk0 & HL & Hv0 & Hl)|[Hnone Hl]].
           ++ left. exists k0, v0, a0. repeat split; auto. apply elem_of_app. now left.
           ++ right. split; [|exact Hl].
              intros k' v' H' Hk' HL. apply elem_of_app in H' as [H'|H']; [eauto|].
              apply list_elem_of_singleton in H'. inversion H'; now subst.
      * destruct IH as [(k0 & v0 & a0 & H0 & Hk0 & HL & Hv0 & Hl)|[Hnone Hl]].
        -- left. exists k0, v0, a0. repeat split; auto. apply elem_of_app. now left.
        -- right. split; [|exact Hl].
           intros k' v' H' Hk' HL. apply elem_of_app in H' as [H'|H']; [eauto|].
           apply list_elem_of_singleton in H'. inversion H'; subst.
           apply stringInSlice_elem_of in HL. congruence.
    + assert (Hkeep : forall m : gmap string string,
                (if stringInSlice (normaliseLabel k) normalised
                 then match attributeString v with
                      | Some attribute => <[normaliseLabel k := attribute]> m
                      | None => m
                      end
                 else m) !! L = m !! L).
      { intros m. destruct (stringInSlice (normaliseLabel k) normalised); [|reflexivity].
        destruct (attributeString v); [|reflexivity]. now rewrite lookup_insert_ne. }
      rewrite Hkeep.
      destruct IH as [(k0 & v0 & a0 & H0 & Hk0 & HL & Hv0 & Hl)|[Hnone Hl]].
      * left. exists k0, v0, a0. repeat split; auto. apply elem_of_app. now left.
      * right. split; [|exact Hl].
        intros k' v' H' Hk' HL. apply elem_of_app in H' as [H'|H']; [eauto|].
        apply list_elem_of_singleton in H'. inversion H'; subst. congruence.
Qed.

(** The row of a node does not depend on the order in which its attributes
    are visited, as long as no two of them are exported under one label with
    different strings. *)
Lemma attribute_row_order (normalised : list string) (s1 s2 : slave) :
  same_node s1 s2 -> collision_free normalised s1 ->
  attribute_row normalised s1 = attribute_row normalised s2.
Proof.
  intros (Hpid & _ & _ & _ & _ & Hperm) Hfree.
  unfold attribute_row. f_equal. apply map_eq. intros L.
  rewrite !slaveAttributesExport_eq, <- Hpid.
  set (export := default_labels normalised {[ "slave"%string := slave_PID s1 ]}).
  destruct (export_attributes_lookup normalised L (slave_Attributes s1) export)
    as [(k & v & a & Hin & Hk & HL & Hv & Hl)|[Hnone Hl]];
    destruct (export_attributes_lookup normalised L (slave_Attributes s2) export)
      as [(k' & v' & a' & Hin' & Hk' & HL' & Hv' & Hl')|[Hnone' Hl']];
    rewrite Hl, Hl'.
  - f_equal. apply (Hfree k v a k' v' a'); auto; try congruence.
    now rewrite Hperm.
  - rewrite Hperm in Hin. rewrite (Hnone' k v Hin Hk HL) in Hv. discriminate.
  - rewrite <- Hperm in Hin'. rewrite (Hnone k' v' Hin' Hk' HL') in Hv'. discriminate.
  - reflexivity.
Qed.

Lemma same_node_gauge_values (value : slave -> float64) (xs ys : list slave) :
  (forall s1 s2, same_node s1 s2 -> value s1 = value s2) ->
  Forall2 same_node xs ys ->
  forall m, set_all slave_key value xs m = set_all slave_key value ys m.
Proof.
  intros Hvalue H. apply set_all_Forall2.
  eapply Forall2_impl; [exact H|].
  intros s1 s2 Hsame. split; [|now apply Hvalue].
  destruct Hsame as (Hpid & Hhost & _). unfold slave_key. now rewrite Hpid, Hhost.
Qed.

(** No gauge closure reads the attributes of a node. *)
Lemma fixed_metrics_same_snapshot (S1 S2 : state) :
  same_snapshot S1 S2 ->
  Forall (fun e0 => forall c, snd e0 S2 c = snd e0 S1 c) fixed_metrics.
Proof.
  intros [Hslaves Hframeworks]. unfold fixed_metrics.
  repeat (apply Forall_cons; split;
          [intros c; cbn [snd];
           first [ rewrite !slave_gauge_eq; f_equal; symmetry;
                   apply same_node_gauge_values; [|exact Hslaves];
                   intros s1 s2 (_ & _ & Hused & Hunreserved & Htotal & _);
                   now rewrite ?Hused, ?Hunreserved, ?Htotal
                 | rewrite !framework_gauge_eq; now rewrite Hframeworks ] |]).
  apply Forall_nil_2.
Qed.

Lemma registry_same_snapshot (attrs : list string) (S1 S2 : state) :
  same_snapshot S1 S2 ->
  Forall (collision_free (normaliseLabelList attrs)) (state_Slaves S1) ->
  Forall (fun e0 => forall c, snd e0 S2 c = snd e0 S1 c)
    (metrics (newMasterStateCollector attrs)).
Proof.
  intros Hsame Hfree. unfold newMasterStateCollector.
  destruct (0 <? length attrs)%nat; cbn [metrics];
    [|now apply fixed_metrics_same_snapshot].
  apply Forall_app. split; [now apply fixed_metrics_same_snapshot|].
  apply Forall_cons. split; [|apply Forall_nil_2].
  intros c. cbn [snd]. rewrite !slave_attributes_eq. f_equal. symmetry.
  apply set_all_Forall2. destruct Hsame as [Hslaves _].
  clear -Hslaves Hfree.
  induction Hslaves as [|s1 s2 xs ys Hnode _ IH]; [constructor|].
  apply Forall_cons in Hfree as [Hfree1 Hfree].
  constructor; [|now apply IH].
  split; [|reflexivity]. now apply attribute_row_order.
Qed.

(** A cycle on a snapshot sends what a cycle on another reading of the same
    snapshot sends, and leaves the same registry. *)
Lemma Collect_same_snapshot (attrs : list string) (history : list fetched)
    (S1 S2 : state) :
  same_snapshot S1 S2 ->
  Forall (collision_free (normaliseLabelList attrs)) (state_Slaves S1) ->
  let c := after history (newMasterStateCollector attrs) in
  Collect (FetchOk S2) c = Collect (FetchOk S1) c.
Proof.
  intros Hsame Hfree c. subst c. rewrite !Collect_eq. cbn [fetchAndDecode].
  destruct (reachable_ok attrs history) as (Hshape & _ & _).
  pose proof (registry_same_snapshot attrs S1 S2 Hsame Hfree) as Hreg.
  assert (Hstep : Forall (fun e => step S2 e = step S1 e)
                    (metrics (after history (newMasterStateCollector attrs)))).
  { clear -Hshape Hreg.
    induction Hshape as [|e e0 ms ms0 (_ & _ & Hset) _ IH]; [constructor|].
    apply Forall_cons in Hreg as [He0 Hreg].
    constructor; [|now apply IH].
    unfold step. now rewrite Hset, He0. }
  clear -Hstep. f_equal; [f_equal|].
  - induction Hstep as [|e ms He _ IH]; [reflexivity|].
    now rewrite !fmap_cons, He, IH.
  - induction Hstep as [|e ms He _ IH]; [reflexivity|].
    now rewrite !bind_cons, He, IH.
Qed.

(** X12.  A cycle is idempotent when no node has two attributes exported
    under one label with different strings: run again on the same snapshot,
    whatever the order in which the second run visits the attributes of the
    nodes, it leaves the registry as the first run left it and sends the
    same samples; so does a cycle whose fetch fails, run again with a failed
    fetch.  The condition is needed: for a node with the attributes rack-id
    of value a and rack.id of value b, a second cycle that visits them in
    the other order adds a record to the attribute metric. *)
Theorem Collect_idempotent (attrs : list string) (history : list fetched)
    (S1 S2 : state) :
  same_snapshot S1 S2 ->
  Forall (collision_free (normaliseLabelList attrs)) (state_Slaves S1) ->
  let c := after history (newMasterStateCollector attrs) in
  Collect (FetchOk S2) (fst (Collect (FetchOk S1) c)) = Collect (FetchOk S1) c /\
  Collect FetchError (fst (Collect FetchError c)) = Collect FetchError c /\
  (let first := rack_snapshot [("rack-id"%string, RawString "a");
                               ("rack.id"%string, RawString "b")] in
   let second := rack_snapshot [("rack.id"%string, RawString "b");
                                ("rack-id"%string, RawString "a")] in
   same_snapshot first second /\
   length (samples_of attributes_name
             (cycle_output ["rack-id"%string] [] (FetchOk first))) = 1%nat /\
   length (samples_of attributes_name
             (cycle_output ["rack-id"%string] [FetchOk first] (FetchOk second))) = 2%nat).
Proof.
  intros Hsame Hfree c. subst c. split; [|split].
  - pose proof (Collect_same_snapshot attrs (history ++ [FetchOk S1]) S1 S2 Hsame Hfree)
      as Horder.
    cbn zeta in Horder. rewrite after_snoc in Horder. rewrite Horder.
    apply Collect_repeat.
  - apply Collect_repeat.
  - cbn zeta. split; [|split].
    + split; [|reflexivity]. constructor; [|constructor].
      repeat split. apply perm_swap.
    + vm_compute. reflexivity.
    + vm_compute. reflexivity.
Qed.

(** An instance: a node with a rack and a zone, read in the two orders. *)
Lemma Collect_idempotent_witness :
  same_snapshot
    (rack_snapshot [("rack"%string, RawString "r1"); ("zone"%string, RawString "z1")])
    (rack_snapshot [("zone"%string, RawString "z1"); ("rack"%string, RawString "r1")]) /\
  Forall (collision_free (normaliseLabelList ["rack"; "zone"]%string))
    (state_Slaves
       (rack_snapshot [("rack"%string, RawString "r1"); ("zone"%string, RawString "z1")])) /\
  Collect
    (FetchOk
       (rack_snapshot [("zone"%string, RawString "z1"); ("rack"%string, RawString "r1")]))
    (fst (Collect
            (FetchOk
               (rack_snapshot [("rack"%string, RawString "r1");
                               ("zone"%string, RawString "z1")]))
            (newMasterStateCollector ["rack"; "zone"]%string)))
  = Collect
      (FetchOk
         (rack_snapshot [("rack"%string, RawString "r1"); ("zone"%string, RawString "z1")]))
      (newMasterStateCollector ["rack"; "zone"]%string).
Proof.
  assert (Hsame : same_snapshot
                    (rack_snapshot [("rack"%string, RawString "r1");
                                    ("zone"%string, RawString "z1")])
                    (rack_snapshot [("zone"%string, RawString "z1");
                                    ("rack"%string, RawString "r1")])).
  { split; [|reflexivity]. constructor; [|constructor]. repeat split. apply perm_swap. }
  assert (Hfree : Forall (collision_free (normaliseLabelList ["rack"; "zone"]%string))
                    (state_Slaves (rack_snapshot [("rack"%string, RawString "r1");
                                                  ("zone"%string, RawString "z1")]))).
  { apply Forall_cons. split; [|apply Forall_nil_2].
    intros k v a k' v' a' H H' Hk _ Hv Hv'.
    cbn [state_Slaves rack_snapshot rack_node slave_Attributes] in H, H'.
    rewrite elem_of_cons, list_elem_of_singleton in H, H'.
    destruct H as [H|H], H' as [H'|H']; inversion H; inversion H'; subst;
      vm_compute in Hk, Hv, Hv'; congruence. }
  split; [exact Hsame|]. split; [exact Hfree|].
  exact (proj1 (Collect_idempotent ["rack"; "zone"]%string [] _ _ Hsame Hfree)).
Defined.

Lemma cycle_length_fixed (S : state) (ms ms0 : list (Collector * extraction)) :
  NoDup (slave_key <$> state_Slaves S) ->
  NoDup (framework_key <$> state_Frameworks S) ->
  same_shape ms ms0 ->
  Forall (fun e0 => e0 ∈ fixed_metrics) ms0 ->
  length (ms ≫= (fun e => Collector_Collect (fst (step S e))))
  = sum_list_with
      (fun e0 => if decide (variableLabels (collector_desc (fst e0)) = labels)
                 then length (state_Slaves S)
                 else length (state_Frameworks S)) ms0.
Proof.
  intros Hs Hf Hshape. induction Hshape as [|e e0 ms ms0 (Hd & Hk & Hset) _ IH];
    intros Hfixed; [reflexivity|].
  apply Forall_cons in Hfixed as [He0 Hfixed].
  rewrite bind_cons, length_app, IH by exact Hfixed. cbn [sum_list_with]. f_equal.
  unfold step. cbn [fst snd]. rewrite Hset.
  destruct (fixed_entry_cases e0 He0) as [[Hl [v Hv]]|[Hl [v Hv]]].
  - rewrite decide_True by exact Hl. rewrite Hv, slave_gauge_eq.
    now apply gauge_out_length.
  - rewrite decide_False by (rewrite Hl; discriminate).
    rewrite Hv, framework_gauge_eq. now apply gauge_out_length.
Qed.

(** X13.  With an empty allow-list, a cycle on a snapshot whose nodes have
    pairwise distinct labels and whose frameworks have pairwise distinct
    names sends twelve samples per node and seven per framework, whatever
    cycles came before. *)
Theorem cycle_sample_count (history : list fetched) (S : state) :
  NoDup (slave_key <$> state_Slaves S) ->
  NoDup (framework_key <$> state_Frameworks S) ->
  length (cycle_output [] history (FetchOk S))
  = (12 * length (state_Slaves S) + 7 * length (state_Frameworks S))%nat.
Proof.
  intros Hs Hf. unfold cycle_output. rewrite Collect_eq. cbn [snd fetchAndDecode].
  destruct (reachable_ok [] history) as (Hshape & _ & _).
  rewrite (cycle_length_fixed S _ _ Hs Hf Hshape).
  - generalize (length (state_Slaves S)) (length (state_Frameworks S)).
    intros n k. unfold newMasterStateCollector.
    cbn [length Nat.ltb Nat.leb metrics]. unfold fixed_metrics.
    cbn [sum_list_with fst collector_desc NewGaugeVec variableLabels].
    rewrite !(decide_True (P := labels = labels)) by reflexivity.
    rewrite !(decide_False (P := framework_labels = labels)) by discriminate.
    lia.
  - apply Forall_forall. intros e0 He0. exact He0.
Qed.

(** An instance: the one node of [small_snapshot] gives twelve samples. *)
Lemma cycle_sample_count_witness :
  NoDup (slave_key <$> state_Slaves small_snapshot) /\
  NoDup (framework_key <$> state_Frameworks small_snapshot) /\
  length (cycle_output [] [FetchOk twin_frameworks] (FetchOk small_snapshot)) = 12%nat.
Proof.
  assert (H1 : NoDup (slave_key <$> state_Slaves small_snapshot)).
  { apply NoDup_singleton. }
  assert (H2 : NoDup (framework_key <$> state_Frameworks small_snapshot)).
  { apply NoDup_nil_2. }
  split; [exact H1|]. split; [exact H2|].
  exact (cycle_sample_count [FetchOk twin_frameworks] small_snapshot H1 H2).
Defined.

Lemma same_shape_descs (ms ms0 : list (Collector * extraction)) :
  same_shape ms ms0 ->
  (fun e => collector_desc (fst e)) <$> ms = (fun e => collector_desc (fst e)) <$> ms0.
Proof.
  induction 1 as [|e e0 ms ms0 (Hd & _ & _) _ IH]; [reflexivity|].
  rewrite !fmap_cons. now rewrite Hd, IH.
Qed.

(** X14.  The descriptors stay what they were at startup: after any cycles
    [Describe] sends the descriptors it sent at startup, whose names are
    pairwise distinct, nineteen of them or twenty; and every sample that a
    cycle sends carries one of these descriptors. *)
Theorem Describe_stable (attrs : list string) (history : list fetched)
    (outcome : fetched) :
  Describe (after history (newMasterStateCollector attrs))
    = Describe (newMasterStateCollector attrs) /\
  NoDup (fqName <$> Describe (newMasterStateCollector attrs)) /\
  length (Describe (newMasterStateCollector attrs))
    = (if decide (attrs = []) then 19 else 20)%nat /\
  (forall m, m ∈ cycle_output attrs history outcome ->
             metric_desc m ∈ Describe (newMasterStateCollector attrs)).
Proof.
  destruct (reachable_ok attrs history) as (Hshape & Hok & _).
  assert (HD : Describe (after history (newMasterStateCollector attrs))
               = Describe (newMasterStateCollector attrs)).
  { unfold Describe. now apply same_shape_descs. }
  split; [exact HD|]. split; [|split].
  - unfold Describe. rewrite <- list_fmap_compose. apply registry_names_NoDup.
  - unfold Describe. rewrite length_fmap. destruct attrs; reflexivity.
  - intros m Hm. rewrite <- HD.
    apply elem_of_cycle_output in Hm as (e & He & Hm).
    apply elem_of_Collector_Collect in Hm as [Hd _].
    pose proof (proj1 (Forall_forall _ _) Hok e He) as Hshape_e.
    destruct (entry_shape_keeps_desc _ _ _ _ Hshape_e
                (fetchAndDecode outcome zero_state) (fst e)) as [Hkeep _].
    unfold step in Hd. cbn [fst snd] in Hd. rewrite Hd, Hkeep.
    unfold Describe. apply list_elem_of_fmap. exists e. now split.
Qed.

(** * Further properties of the attribute metric *)

(** Every row of the attribute counter, at any time, is the row of a node of
    some snapshot and has the value 1. *)
Lemma attribute_store_rows attrs (history : list fetched) :
  forall e,
    e ∈ metrics (after history (newMasterStateCollector attrs)) ->
    entry_name e = attributes_name ->
    forall k v, collector_values (fst e) !! k = Some v ->
      v = 1%float /\ exists s, k = attribute_row (normaliseLabelList attrs) s.
Proof.
  induction history as [|o history IH] using rev_ind; intros e He Hname k v Hl.
  - exfalso. cbn [after fold_left] in He.
    unfold newMasterStateCollector in He.
    assert (Hempty : collector_values (fst e) = ∅).
    { destruct (0 <? length attrs)%nat; cbn [metrics] in He.
      - apply elem_of_app in He as [He|He].
        + exfalso. apply (gauge_descs_names (collector_desc (fst e))); [|exact Hname].
          apply list_elem_of_fmap. eauto.
        + apply list_elem_of_singleton in He. now subst e.
      - exfalso. apply (gauge_descs_names (collector_desc (fst e))); [|exact Hname].
        apply list_elem_of_fmap. eauto. }
    rewrite Hempty, lookup_empty in Hl. discriminate.
  - rewrite metrics_after_snoc in He.
    apply list_elem_of_fmap in He as (e1 & -> & He1).
    pose proof (reachable_entry_ok _ _ _ He1) as Hok.
    destruct (entry_shape_keeps_desc _ _ _ _ Hok (fetchAndDecode o zero_state) (fst e1))
      as [Hdesc _].
    assert (Hname1 : entry_name e1 = attributes_name).
    { unfold entry_name, step in Hname. cbn [fst snd] in Hname. now rewrite Hdesc in Hname. }
    destruct (attribute_entry_extraction attrs history e1 He1 Hname1) as (_ & _ & Hset).
    unfold step in Hl. cbn [fst snd] in Hl.
    rewrite Hset, slave_attributes_eq in Hl. cbn [collector_values] in Hl.
    apply set_all_lookup_Some in Hl as [(s & _ & Hk & Hv)|Hl].
    + split; [exact Hv | eauto].
    + exact (IH e1 He1 Hname1 k v Hl).
Qed.

(** The samples of the attribute metric that a cycle sends. *)
Lemma attribute_sample_row attrs history outcome (m : Metric) :
  m ∈ cycle_output attrs history outcome ->
  fqName (metric_desc m) = attributes_name ->
  metric_value m = 1%float /\
  exists s, metric_labelValues m = attribute_row (normaliseLabelList attrs) s.
Proof.
  intros Hm Hname.
  apply elem_of_cycle_output in Hm as (e & He & Hm).
  apply elem_of_Collector_Collect in Hm as [Hd Hl].
  pose proof (attribute_store_rows attrs (history ++ [outcome])
                (step (fetchAndDecode outcome zero_state) e)) as Hrows.
  rewrite metrics_after_snoc in Hrows.
  apply (Hrows (list_elem_of_fmap_2 _ _ _ He)); [|exact Hl].
  unfold entry_name. now rewrite <- Hd.
Qed.

(** X15.  Every sample of the attribute metric, in every cycle, has the value
    1 and one label value per label name, two more than the allow-list has
    names; unless hostname is itself an allow-listed name, its hostname
    label is the empty string: the closure never stores the hostname of the
    node. *)
Theorem attribute_samples_shape (attrs : list string) (history : list fetched)
    (outcome : fetched) (m : Metric) :
  m ∈ cycle_output attrs history outcome ->
  fqName (metric_desc m) = attributes_name ->
  metric_value m = 1%float /\
  length (metric_labelValues m) = (2 + length attrs)%nat /\
  length (metric_labelValues m) = length (variableLabels (metric_desc m)) /\
  ("hostname"%string ∉ normaliseLabelList attrs ->
   metric_labelValues m !! 1%nat = Some EmptyString).
Proof.
  intros Hm Hname.
  destruct (attribute_sample_row attrs history outcome m Hm Hname) as (Hv & s & Hrow).
  assert (Hlen : length (metric_labelValues m) = (2 + length attrs)%nat).
  { rewrite Hrow. unfold attribute_row, getLabelValuesFromMap, normaliseLabelList.
    rewrite length_fmap, length_app, length_fmap. reflexivity. }
  split; [exact Hv|]. split; [exact Hlen|]. split.
  - apply elem_of_cycle_output in Hm as (e & He & Hm).
    apply elem_of_Collector_Collect in Hm as [Hd _].
    pose proof (reachable_entry_ok _ _ _ He) as Hok.
    destruct (entry_shape_keeps_desc _ _ _ _ Hok (fetchAndDecode outcome zero_state) (fst e))
      as [Hdesc _].
    unfold step in Hd. cbn [fst snd] in Hd. rewrite Hdesc in Hd.
    assert (Hname_e : entry_name e = attributes_name)
      by (unfold entry_name; now rewrite <- Hd).
    destruct (attribute_entry_extraction attrs history e He Hname_e) as (_ & Hlabels & _).
    rewrite Hlen, Hd, Hlabels. unfold normaliseLabelList.
    now rewrite length_app, length_fmap.
  - intros Hnot. rewrite Hrow. now apply attribute_row_hostname.
Qed.

(** An instance: the row of the node of [small_snapshot], whose hostname is
    h1. *)
Lemma attribute_samples_shape_witness :
  rack_sample ∈ cycle_output ["rack"%string] [] (FetchOk small_snapshot) /\
  fqName (metric_desc rack_sample) = attributes_name /\
  slave_Hostname small_node = "h1"%string /\
  metric_labelValues rack_sample !! 1%nat = Some EmptyString.
Proof.
  assert (Hm : rack_sample ∈ cycle_output ["rack"%string] [] (FetchOk small_snapshot)).
  { apply (list_elem_of_lookup_2 _ 12%nat). vm_compute. reflexivity. }
  split; [exact Hm|]. split; [reflexivity|]. split; [reflexivity|].
  refine (proj2 (proj2 (proj2 (attribute_samples_shape ["rack"%string] []
                                 (FetchOk small_snapshot) rack_sample Hm eq_refl))) _).
  intros H. apply list_elem_of_singleton in H. discriminate H.
Defined.

Lemma attribute_sample_kept attrs history o o2 (m : Metric) :
  m ∈ cycle_output attrs history o ->
  fqName (metric_desc m) = attributes_name ->
  m ∈ cycle_output attrs (history ++ [o]) o2.
Proof.
  intros Hm Hname.
  destruct (attribute_sample_row attrs history o m Hm Hname) as (Hv & _).
  apply elem_of_cycle_output in Hm as (e & He & Hm).
  apply elem_of_cycle_output.
  exists (step (fetchAndDecode o zero_state) e). split.
  - rewrite metrics_after_snoc. apply list_elem_of_fmap. exists e. now split.
  - pose proof (reachable_entry_ok _ _ _ He) as Hok.
    apply elem_of_Collector_Collect in Hm as [Hd Hl].
    unfold step in Hd, Hl |- *. cbn [fst snd] in Hd, Hl |- *.
    unfold entry_ok in Hok.
    inversion Hok as [d v Hlab Hn Hdd Hk Hset
                     |d v Hlab Hn Hdd Hk Hset
                     |d Hne Hn Hlab Hdd Hk Hset].
    + exfalso. rewrite <- Hset, slave_gauge_eq in Hd. cbn in Hd. congruence.
    + exfalso. rewrite <- Hset, framework_gauge_eq in Hd. cbn in Hd. congruence.
    + rewrite <- Hset in Hd, Hl |- *. rewrite slave_attributes_eq in Hd, Hl.
      rewrite !slave_attributes_eq. apply elem_of_Collector_Collect.
      cbn in Hd, Hl |- *. split; [exact Hd|].
      rewrite Hv in Hl |- *. now apply set_all_const_kept.
Qed.

(** X16.  The attribute counter only grows: a sample of the attribute metric
    that some cycle has sent is sent again by every later cycle, whatever
    the snapshots of the cycles in between are and whether their fetches
    fail or not. *)
Theorem attribute_rows_persist (attrs : list string) (later : list fetched) :
  forall (history : list fetched) (o o' : fetched) (m : Metric),
    m ∈ cycle_output attrs history o ->
    fqName (metric_desc m) = attributes_name ->
    m ∈ cycle_output attrs (history ++ o :: later) o'.
Proof.
  induction later as [|o1 later IH]; intros history o o' m Hm Hname.
  - now apply attribute_sample_kept.
  - replace (history ++ o :: o1 :: later) with ((history ++ [o]) ++ o1 :: later)
      by now rewrite <- app_assoc.
    apply IH; [|exact Hname]. now apply attribute_sample_kept.
Qed.

(** An instance: the row of [small_snapshot] three cycles later. *)
Lemma attribute_rows_persist_witness :
  rack_sample ∈ cycle_output ["rack"%string] [] (FetchOk small_snapshot) /\
  fqName (metric_desc rack_sample) = attributes_name /\
  rack_sample ∈ cycle_output ["rack"%string]
                  ([] ++ FetchOk small_snapshot :: [FetchOk other_snapshot; FetchError])
                  (FetchOk zero_state).
Proof.
  assert (Hm : rack_sample ∈ cycle_output ["rack"%string] [] (FetchOk small_snapshot)).
  { apply (list_elem_of_lookup_2 _ 12%nat). vm_compute. reflexivity. }
  split; [exact Hm|]. split; [reflexivity|].
  exact (attribute_rows_persist ["rack"%string] [FetchOk other_snapshot; FetchError]
           [] (FetchOk small_snapshot) (FetchOk zero_state) rack_sample Hm eq_refl).
Defined.

(** Among the string attributes of a node with the same normalised name the
    last one visited sets the label. *)
Lemma export_attributes_last (normalised : list string) (L a : string)
    (pre post : list (string * RawMessage)) (k : string) (v : RawMessage)
    (export : gmap string string) :
  L ∈ normalised -> normaliseLabel k = L -> attributeString v = Some a ->
  (forall k' v', (k', v') ∈ post -> normaliseLabel k' = L ->
                 attributeString v' = None) ->
  fold_left (export_attribute normalised) (pre ++ (k, v) :: post) export !! L = Some a.
Proof.
  intros HL Hk Hv Hpost. rewrite fold_left_app. cbn [fold_left].
  rewrite export_attributes_kept.
  - unfold export_attribute. cbn [fst snd]. rewrite Hk.
    rewrite (proj2 (stringInSlice_elem_of L normalised) HL), Hv.
    apply lookup_insert_eq.
  - intros k' v' Hin Hk' _. now apply (Hpost k' v').
Qed.

(** X17.  When several attributes of a node have the same normalised name,
    the label carries the string of the last of them with a string value in
    the order in which the loop visits them; as Go leaves that order to the
    runtime, the row depends on it: for the keys rack-id and rack.id the two
    orders give two different rows. *)
Theorem last_attribute_wins (attrs : list string) (s : slave) (j : nat) (L a : string)
    (pre post : list (string * RawMessage)) (k : string) (v : RawMessage) :
  normaliseLabelList attrs !! j = Some L ->
  slave_Attributes s = pre ++ (k, v) :: post ->
  normaliseLabel k = L ->
  attributeString v = Some a ->
  (forall k' v', (k', v') ∈ post -> normaliseLabel k' = L ->
                 attributeString v' = None) ->
  attribute_row (normaliseLabelList attrs) s !! (2 + j)%nat = Some a /\
  attribute_row (normaliseLabelList ["rack-id"%string])
    (rack_node [("rack-id"%string, RawString "a"); ("rack.id"%string, RawString "b")])
  <> attribute_row (normaliseLabelList ["rack-id"%string])
       (rack_node [("rack.id"%string, RawString "b"); ("rack-id"%string, RawString "a")]).
Proof.
  intros Hj HA Hk Hv Hpost. split.
  - rewrite (attribute_row_lookup _ _ _ _ Hj), slaveAttributesExport_eq, HA.
    rewrite (export_attributes_last _ L a); auto.
    now apply list_elem_of_lookup_2 in Hj.
  - vm_compute. discriminate.
Qed.

(** An instance: the attributes rack-id and rack.id, visited in this order. *)
Lemma last_attribute_wins_witness :
  normaliseLabelList ["rack-id"%string] !! 0%nat = Some "rack_id"%string /\
  attribute_row (normaliseLabelList ["rack-id"%string])
    (rack_node [("rack-id"%string, RawString "a"); ("rack.id"%string, RawString "b")])
    !! 2%nat = Some "b"%string.
Proof.
  split; [reflexivity|].
  refine (proj1 (last_attribute_wins ["rack-id"%string]
                   (rack_node [("rack-id"%string, RawString "a");
                               ("rack.id"%string, RawString "b")])
                   0 "rack_id" "b" [("rack-id"%string, RawString "a")] []
                   "rack.id" (RawString "b") eq_refl eq_refl eq_refl eq_refl _)).
  intros k' v' H. inversion H.
Defined.

(** X18.  The order in which [Collect] visits the metrics of the registry,
    which Go leaves to the runtime, changes neither which vectors the
    registry holds after the cycle nor which samples are sent: both are
    permuted only. *)
Theorem Collect_order (outcome : fetched) (ms ms' : list (Collector * extraction)) :
  ms ≡ₚ ms' ->
  metrics (fst (Collect outcome {| metrics := ms |}))
    ≡ₚ metrics (fst (Collect outcome {| metrics := ms' |})) /\
  snd (Collect outcome {| metrics := ms |})
    ≡ₚ snd (Collect outcome {| metrics := ms' |}).
Proof.
  intros Hp. rewrite !Collect_eq. cbn [fst snd metrics]. now rewrite Hp.
Qed.

(** An instance: the registry with its first two metrics exchanged. *)
Lemma Collect_order_witness :
  [slave_cpus_entry; framework_active_entry] ≡ₚ [framework_active_entry; slave_cpus_entry] /\
  snd (Collect (FetchOk twin_frameworks)
         {| metrics := [slave_cpus_entry; framework_active_entry] |})
    ≡ₚ snd (Collect (FetchOk twin_frameworks)
              {| metrics := [framework_active_entry; slave_cpus_entry] |}).
Proof.
  assert (H : [slave_cpus_entry; framework_active_entry]
              ≡ₚ [framework_active_entry; slave_cpus_entry]) by apply perm_swap.
  split; [exact H|].
  exact (proj2 (Collect_order (FetchOk twin_frameworks) _ _ H)).
Defined.
